(** * Turkish syllable analysis: inventory, segmentation, store and crawl loop

    A shallow embedding of [turkish_hyphenation.py]: the syllable inventory
    ([generate_all_syllables]), the segmentation table ([syllabify_word]),
    the SQLite-backed store of [ContinuousCrawler] with its transaction
    boundaries, link extraction and the crawl loop, followed by the
    properties of each. *)

From Stdlib Require Import Ascii String.
From stdpp Require Import base numbers list gmap strings sorting.

Local Open Scope nat_scope.

(** ** Python strings

    A Python [str] is a sequence of Unicode code points; [len], indexing and
    slicing count code points, so a [str] is a list of code points here. *)

Abbreviation str := (list N).

(** String literals of the source are UTF-8 text; [py] decodes the bytes of
    a literal into its code points (sequences of one to four bytes). *)
Fixpoint utf8_decode (bs : list N) : list N :=
  match bs with
  | [] => []
  | b0 :: r =>
      if (b0 <? 128)%N then b0 :: utf8_decode r
      else if (b0 <? 224)%N then
        match r with
        | b1 :: r' => (b0 mod 32 * 64 + b1 mod 64)%N :: utf8_decode r'
        | _ => []
        end
      else if (b0 <? 240)%N then
        match r with
        | b1 :: b2 :: r' =>
            (b0 mod 16 * 4096 + b1 mod 64 * 64 + b2 mod 64)%N :: utf8_decode r'
        | _ => []
        end
      else
        match r with
        | b1 :: b2 :: b3 :: r' =>
            (b0 mod 8 * 262144 + b1 mod 64 * 4096 + b2 mod 64 * 64 + b3 mod 64)%N
              :: utf8_decode r'
        | _ => []
        end
  end.

Definition py (s : string) : str :=
  utf8_decode (map N_of_ascii (list_ascii_of_string s)).

(** [word[j:i]] for [0 <= j <= i]: the code points at positions [j .. i-1]
    (shorter when [i] exceeds the length). *)
Definition slice (word : str) (j i : nat) : str := take (i - j) (drop j word).

(** [''.join(parts)] *)
Definition str_join (parts : list str) : str := concat parts.

(** ** The alphabets and the syllable inventory *)

Definition VOWELS : list str :=
  [py "a"; py "e"; py "ı"; py "i"; py "o"; py "ö"; py "u"; py "ü"].

Definition CONSONANTS : list str :=
  [py "b"; py "c"; py "ç"; py "d"; py "f"; py "g"; py "ğ"; py "h"; py "j";
   py "k"; py "l"; py "m"; py "n"; py "p"; py "r"; py "s"; py "ş"; py "t";
   py "v"; py "y"; py "z"].

(** [itertools.product] over the given pools: every tuple with one element
    of each pool, the rightmost pool advancing fastest. Tuples are lists. *)
Fixpoint product {A} (pools : list (list A)) : list (list A) :=
  match pools with
  | [] => [[]]
  | pool :: rest => x ← pool; (x ::.) <$> product rest
  end.

Definition v_syllables : list str := VOWELS.
Definition vc_syllables : list str := str_join <$> product [VOWELS; CONSONANTS].
Definition cv_syllables : list str := str_join <$> product [CONSONANTS; VOWELS].
Definition cvc_syllables : list str :=
  str_join <$> product [CONSONANTS; VOWELS; CONSONANTS].
Definition cvcc_syllables : list str :=
  str_join <$> product [CONSONANTS; VOWELS; CONSONANTS; CONSONANTS].

Definition generate_all_syllables : list str :=
  let all_syllables := [] in
  let all_syllables := all_syllables ++ v_syllables in
  let all_syllables := all_syllables ++ vc_syllables in
  let all_syllables := all_syllables ++ cv_syllables in
  let all_syllables := all_syllables ++ cvc_syllables in
  let all_syllables := all_syllables ++ cvcc_syllables in
  all_syllables.

(** [set(generate_all_syllables())], as every caller builds it. *)
Definition all_syllables_set : gset str := list_to_set generate_all_syllables.

(** ** Segmentation *)

Section Segmentation.
(** [str.lower] is a builtin over the Unicode tables; it is a parameter of
    the segmentation. [str_lower] below is its value on the letters the
    tokenizer admits. *)
Variable lower : str → str.

(** The table [dp]: [dp[i]] is [None] or the list of syllables found for
    [word[0:i]]. *)
Abbreviation table := (list (option (list str))).

(** The inner loop for one end position [i] over the remaining start
    positions [js]: the first [j] whose [word[j:i]] is in the inventory
    and whose [dp[j]] is set writes [dp[i]] and breaks. *)
Fixpoint scan (word : str) (inv : gset str) (dp : table) (i : nat)
    (js : list nat) : table :=
  match js with
  | [] => dp
  | j :: js' =>
      let syllable := slice word j i in
      match mjoin (dp !! j) with
      | Some dp_j =>
          if bool_decide (syllable ∈ inv)
          then <[i := Some (dp_j ++ [syllable])]> dp
          else scan word inv dp i js'
      | None => scan word inv dp i js'
      end
  end.

(** [range(max(0, i - 4), i)] *)
Definition starts (i : nat) : list nat := seq (i - 4) (i - (i - 4)).

(** The outer loop over the end positions. *)
Definition fill (word : str) (inv : gset str) (dp : table)
    (ends : list nat) : table :=
  foldl (λ dp i, scan word inv dp i (starts i)) dp ends.

Definition syllabify_word (word : str) (inv : gset str)
    : option (list str) :=
  let word := lower word in
  let n := length word in
  let dp := replicate (n + 1) None in
  let dp := <[0 := Some []]> dp in
  let dp := fill word inv dp (seq 1 n) in
  mjoin (dp !! n).

End Segmentation.

(** [str.lower] on the code points of the tokenizer's character class
    [[a-zA-ZçÇğĞıİöÖşŞüÜ]]: ASCII capitals and Ç, Ğ, Ö, Ş, Ü go to their
    small letters, İ (U+0130) goes to "i" followed by U+0307, the small
    letters are unchanged. Code points outside the class are left as they
    are. *)
Definition lower_cp (c : N) : str :=
  if (65 <=? c)%N && (c <=? 90)%N then [(c + 32)%N]
  else if (c =? 199)%N then [231%N]
  else if (c =? 214)%N then [246%N]
  else if (c =? 220)%N then [252%N]
  else if (c =? 286)%N then [287%N]
  else if (c =? 304)%N then [105%N; 775%N]
  else if (c =? 350)%N then [351%N]
  else [c].

Definition str_lower (s : str) : str := s ≫= lower_cp.

(** [str.isupper] on one code point of the tokenizer's character class. *)
Definition isupper_cp (c : N) : bool :=
  (65 <=? c)%N && (c <=? 90)%N
  || bool_decide (c ∈ [199; 214; 220; 286; 304; 350]%N).

(** ** The store

    The SQLite database of [ContinuousCrawler]: four n-gram tables keyed by
    the n-gram text, the word table, the visited urls with their timestamp,
    and the url queue with its AUTOINCREMENT row id. *)

Record ngram_row := NgramRow {
  frequency : Z;
  last_word : str;
  last_url : str
}.

Record queue_row := QueueRow {
  (** the column [id] *)
  row_id : Z;
  url : str
}.

Record db := Db {
  syllables : gmap str ngram_row;
  monographs : gmap str ngram_row;
  digraphs : gmap str ngram_row;
  trigraphs : gmap str ngram_row;
  words : gset str;
  visited_urls : gmap str str;
  url_queue : list queue_row;
  (** the largest row id [url_queue] ever used (sqlite_sequence) *)
  url_queue_seq : Z
}.

Definition empty_db : db := Db ∅ ∅ ∅ ∅ ∅ ∅ [] 0.

Inductive ngram_table := Syllables | Monographs | Digraphs | Trigraphs.

Definition rows (k : ngram_table) (d : db) : gmap str ngram_row :=
  match k with
  | Syllables => syllables d
  | Monographs => monographs d
  | Digraphs => digraphs d
  | Trigraphs => trigraphs d
  end.

Definition set_rows (k : ngram_table) (t : gmap str ngram_row) (d : db) : db :=
  match k with
  | Syllables =>
      Db t (monographs d) (digraphs d) (trigraphs d) (words d)
        (visited_urls d) (url_queue d) (url_queue_seq d)
  | Monographs =>
      Db (syllables d) t (digraphs d) (trigraphs d) (words d)
        (visited_urls d) (url_queue d) (url_queue_seq d)
  | Digraphs =>
      Db (syllables d) (monographs d) t (trigraphs d) (words d)
        (visited_urls d) (url_queue d) (url_queue_seq d)
  | Trigraphs =>
      Db (syllables d) (monographs d) (digraphs d) t (words d)
        (visited_urls d) (url_queue d) (url_queue_seq d)
  end.

(** The statements the crawler sends. *)
Inductive statement :=
  (** INSERT INTO <table> (<key>, frequency, last_word, last_url)
      VALUES (?, 1, ?, ?) ON CONFLICT(<key>) DO UPDATE SET
      frequency = frequency + 1, last_word = excluded.last_word,
      last_url = excluded.last_url *)
  | Upsert (k : ngram_table) (key word page_url : str)
  (** INSERT OR IGNORE INTO words (word) VALUES (?) *)
  | InsertWord (word : str)
  (** INSERT OR IGNORE INTO visited_urls (url, crawled_at) VALUES (?, ?) *)
  | InsertVisited (u crawled_at : str)
  (** INSERT OR IGNORE INTO url_queue (url) VALUES (?) *)
  | InsertQueue (u : str)
  (** DELETE FROM url_queue WHERE id = ? *)
  | DeleteQueue (url_id : Z).

Definition upsert (key word page_url : str) (t : gmap str ngram_row)
    : gmap str ngram_row :=
  match t !! key with
  | None => <[key := NgramRow 1 word page_url]> t
  | Some r => <[key := NgramRow (frequency r + 1) word page_url]> t
  end.

Definition execute (q : statement) (d : db) : db :=
  match q with
  | Upsert k key word page_url =>
      set_rows k (upsert key word page_url (rows k d)) d
  | InsertWord word =>
      Db (syllables d) (monographs d) (digraphs d) (trigraphs d)
        ({[word]} ∪ words d) (visited_urls d) (url_queue d) (url_queue_seq d)
  | InsertVisited u crawled_at =>
      match visited_urls d !! u with
      | Some _ => d
      | None =>
          Db (syllables d) (monographs d) (digraphs d) (trigraphs d)
            (words d) (<[u := crawled_at]> (visited_urls d)) (url_queue d)
            (url_queue_seq d)
      end
  | InsertQueue u =>
      (* AUTOINCREMENT takes the next id before the UNIQUE column is
         checked, and SQLite keeps it in sqlite_sequence also when the
         conflict makes OR IGNORE drop the row *)
      let new_id := (url_queue_seq d + 1)%Z in
      if bool_decide (u ∈ url <$> url_queue d)
      then
        Db (syllables d) (monographs d) (digraphs d) (trigraphs d)
          (words d) (visited_urls d) (url_queue d) new_id
      else
        Db (syllables d) (monographs d) (digraphs d) (trigraphs d)
          (words d) (visited_urls d) (url_queue d ++ [QueueRow new_id u])
          new_id
  | DeleteQueue url_id =>
      Db (syllables d) (monographs d) (digraphs d) (trigraphs d)
        (words d) (visited_urls d)
        (filter (λ r, row_id r ≠ url_id) (url_queue d)) (url_queue_seq d)
  end.

(** The connection: [disk] holds what is committed and survives the
    process, [txn] is what the connection sees, the committed state with
    the statements of the open transaction applied. *)
Record conn := Conn {
  disk : db;
  txn : db
}.

(** What a method does to the connection: [cursor.execute] or
    [self.conn.commit()]. *)
Inductive call :=
  | Execute (q : statement)
  | Commit.

Definition step (c : conn) (a : call) : conn :=
  match a with
  | Execute q => Conn (disk c) (execute q (txn c))
  | Commit => Conn (txn c) (txn c)
  end.

Definition run (script : list call) (c : conn) : conn := foldl step c script.

(** How a script is left before its end. [Crash]: the process dies (it
    is killed, the power fails) or the exception is raised outside the
    [try] of [crawl_continuous]; nothing more is executed and the open
    transaction is lost. [Raise]: KeyboardInterrupt or any other exception
    is raised inside the loop of [crawl_continuous], whose [finally]
    clause calls [self.conn.commit()]: the open transaction is
    committed. *)
Inductive stop := Crash | Raise.

(** What is on disk when a script is left in the way [how] after the calls
    [done]. *)
Definition durable (how : stop) (done : list call) (c : conn) : db :=
  match how with
  | Crash => disk (run done c)
  | Raise => disk (run (done ++ [Commit]) c)
  end.

(** A script is all-or-nothing from [c] against the stop [how] when
    leaving it after any number of its calls leaves on disk either what
    was there before or what the whole script leaves. *)
Definition all_or_nothing (how : stop) (script : list call) (c : conn)
    : Prop :=
  ∀ done, done `prefix_of` script →
    durable how done c = disk c
    ∨ durable how done c = disk (run script c).

(** ** The crawler *)

(** [pattern in s] on strings. *)
Fixpoint startswith (s pattern : str) : bool :=
  match pattern, s with
  | [], _ => true
  | p :: pattern', x :: s' => bool_decide (p = x) && startswith s' pattern'
  | _ :: _, [] => false
  end.

Fixpoint contains (s pattern : str) : bool :=
  startswith s pattern ||
  match s with
  | [] => false
  | _ :: s' => contains s' pattern
  end.

(** The character class [[a-zA-ZçÇğĞıİöÖşŞüÜ]] of [extract_words]. *)
Definition turkish_pattern (c : N) : bool :=
  (97 <=? c)%N && (c <=? 122)%N || (65 <=? c)%N && (c <=? 90)%N
  || bool_decide
       (c ∈ [231; 199; 287; 286; 305; 304; 246; 214; 351; 350; 252; 220]%N).

(** [re.findall(turkish_pattern, text)]: the maximal runs of class
    characters, left to right; [current] is the run being read. *)
Fixpoint findall (text : str) (current : str) : list str :=
  match text with
  | [] => if current is [] then [] else [current]
  | c :: text' =>
      if turkish_pattern c then findall text' (current ++ [c])
      else (if current is [] then [] else [current]) ++ findall text' []
  end.

Section Crawler.
(** Builtins and collaborators of the crawler: [str.lower], [str.isupper]
    on a character, the order in which a [set] of words is iterated,
    [urljoin], the scheme and netloc of [urlparse], the clock, and the
    network: [http t u] is what the [t]-th fetch of the session gets for
    [u], the page's visible text and the [href]s of its anchors in
    document order, or [None] when the fetch or the parse raises.
    [insert_raises t u]: [cursor.execute] raises when [_add_urls_to_queue]
    inserts [u] after the [t]-th fetch (0: the seeds), as it does for a
    url that cannot be encoded; the row is then not inserted, and the bare
    [except] swallows whatever was raised, KeyboardInterrupt included. *)
Variable lower : str → str.
Variable isupper : N → bool.
Variable set_iter : list str → list str.
Variable urljoin : str → str → str.
Variable scheme : str → str.
Variable netloc : str → str.
Variable now : nat → str.
Variable http : nat → str → option (str * list str).
Variable insert_raises : nat → str → bool.

(** [self.all_syllables_set] *)
Variable inventory : gset str.

Definition extract_words (text : str) (preserve_case : bool) : list str :=
  let words := findall text [] in
  if preserve_case
  then filter (λ word, 1 < length word) words
  else lower <$> filter (λ word, 1 < length word) words.

Definition _is_url_visited (u : str) (c : conn) : bool :=
  bool_decide (is_Some (visited_urls (txn c) !! u)).

Definition _mark_url_visited (u crawled_at : str) : list call :=
  [Execute (InsertVisited u crawled_at); Commit].

(** [try: cursor.execute(INSERT OR IGNORE ...) except: pass] for each
    url, then the commit. *)
Definition _add_urls_to_queue (t : nat) (urls : list str) : list call :=
  (urls ≫= λ u, if insert_raises t u then [] else [Execute (InsertQueue u)])
  ++ [Commit].

(** SELECT id, url FROM url_queue ORDER BY id LIMIT 1 *)
Definition first_by_id (q : list queue_row) : option queue_row :=
  foldl (λ best r,
           match best with
           | Some b =>
               if bool_decide (row_id r < row_id b)%Z then Some r else best
           | None => Some r
           end) None q.

Definition _get_next_url (c : conn) : option str * conn :=
  match first_by_id (url_queue (txn c)) with
  | Some result =>
      (Some (url result),
       run [Execute (DeleteQueue (row_id result)); Commit] c)
  | None => (None, c)
  end.

(** The calls [_get_next_url] makes on the connection. *)
Definition _get_next_url_calls (c : conn) : list call :=
  match first_by_id (url_queue (txn c)) with
  | Some result => [Execute (DeleteQueue (row_id result)); Commit]
  | None => []
  end.

Definition _update_syllable (syllable word u : str) : list call :=
  [Execute (Upsert Syllables syllable word u)].

Definition _update_monograph (monograph word u : str) : list call :=
  [Execute (Upsert Monographs monograph word u)].

Definition _update_digraph (digraph word u : str) : list call :=
  [Execute (Upsert Digraphs digraph word u)].

Definition _update_trigraph (trigraph word u : str) : list call :=
  [Execute (Upsert Trigraphs trigraph word u)].

Definition _extract_monographs (word : str) : list str :=
  (λ c, [c]) <$> word.

Definition _extract_digraphs (word : str) : list str :=
  (λ i, slice word i (i + 2)) <$> seq 0 (length word - 1).

Definition _extract_trigraphs (word : str) : list str :=
  (λ i, slice word i (i + 3)) <$> seq 0 (length word - 2).

Definition turkish_patterns : list str :=
  [py ".tr/"; py ".tr?"; py ".tr#"; py "tr.wikipedia.org"; py "/tr/";
   py "/tr?"; py "turkish"; py "turkiye"; py "istanbul"].

Definition is_turkish_domain (u : str) : bool :=
  let url_lower := lower u in
  existsb (λ pattern, contains url_lower pattern) turkish_patterns.

(** The loop of [extract_links] over the anchors' [href]s, with the list
    [links] built so far. *)
Definition keep_link (base_url : str) (c : conn) (links : list str)
    (href : str) : list str :=
  let absolute_url := urljoin base_url href in
  let base_domain := netloc base_url in
  let link_domain := netloc absolute_url in
  if (bool_decide (link_domain = base_domain)
      || is_turkish_domain absolute_url)
     && bool_decide (scheme absolute_url ∈ [py "http"; py "https"])
     && negb (_is_url_visited absolute_url c)
  then links ++ [absolute_url]
  else links.

Definition extract_links (hrefs : list str) (base_url : str) (c : conn)
    : list str :=
  let links := foldl (keep_link base_url c) [] hrefs in
  take 50 links.

Definition crawl_page (t : nat) (u : str) (c : conn) : str * list str :=
  match http t u with
  | Some (text, hrefs) => (text, extract_links hrefs u c)
  | None => ([], [])
  end.

(** The body of the loop of [process_text] for one word. *)
Definition process_word (word u : str) : list call :=
  if (if word is c :: _ then isupper c else false) then []
  else
    let word_lower := lower word in
    match syllabify_word lower word_lower inventory with
    | Some ((_ :: _) as syllables) =>
        [Execute (InsertWord word_lower)]
        ++ (syllables ≫= λ syllable, _update_syllable syllable word_lower u)
        ++ (_extract_monographs word_lower ≫= λ monograph,
              _update_monograph monograph word_lower u)
        ++ (_extract_digraphs word_lower ≫= λ digraph,
              _update_digraph digraph word_lower u)
        ++ (_extract_trigraphs word_lower ≫= λ trigraph,
              _update_trigraph trigraph word_lower u)
    | _ => []
    end.

Definition process_text (text u : str) : list call :=
  let words_with_case := extract_words text true in
  let unique_words := set_iter words_with_case in
  (unique_words ≫= λ word, process_word word u) ++ [Commit].

(** The calls of one pass of the loop of [crawl_continuous] after the url
    was taken from the queue and found not visited: the visited mark, the
    text, the links. *)
Definition page_script (t : nat) (u text : str) (links : list str)
    : list call :=
  _mark_url_visited u (now t)
  ++ (if text is [] then [] else process_text text u)
  ++ (if links is [] then [] else _add_urls_to_queue t links).

(** How a pass of the loop ends. *)
Inductive control := Continue | Break.

(** The state of a session: the connection, [pages_this_session], and the
    urls fetched so far, oldest first. *)
Record session := Session {
  connection : conn;
  pages_this_session : nat;
  fetched : list str
}.

(** One pass of [while True]: the state it leaves, and whether the loop
    goes on ([continue], or the end of the body) or stops ([break]). *)
Definition crawl_pass (max_pages : Z) (s : session) : control * session :=
  if bool_decide (0 < max_pages)%Z
     && bool_decide (max_pages ≤ Z.of_nat (pages_this_session s))%Z
  then (Break, s)
  else
    match _get_next_url (connection s) with
    | (None, c) | (Some [], c) =>
        (Break, Session c (pages_this_session s) (fetched s))
    | (Some u, c) =>
        if _is_url_visited u c
        then (Continue, Session c (pages_this_session s) (fetched s))
        else
          let pages := pages_this_session s + 1 in
          let '(text, links) := crawl_page pages u c in
          (Continue,
           Session (run (page_script pages u text links) c) pages
             (fetched s ++ [u]))
    end.

(** A step of a pass: a call on the connection, or the request for a
    page with the [pages_this_session += 1] before it. *)
Inductive action :=
  | Call (a : call)
  | Request (u : str).

Definition act (s : session) (x : action) : session :=
  match x with
  | Call a =>
      Session (step (connection s) a) (pages_this_session s) (fetched s)
  | Request u =>
      Session (connection s) (pages_this_session s + 1) (fetched s ++ [u])
  end.

(** The steps of the pass [crawl_pass max_pages s], in order. *)
Definition crawl_pass_actions (max_pages : Z) (s : session) : list action :=
  if bool_decide (0 < max_pages)%Z
     && bool_decide (max_pages ≤ Z.of_nat (pages_this_session s))%Z
  then []
  else
    let dequeue := Call <$> _get_next_url_calls (connection s) in
    match _get_next_url (connection s) with
    | (None, _) | (Some [], _) => dequeue
    | (Some u, c) =>
        if _is_url_visited u c then dequeue
        else
          let pages := pages_this_session s + 1 in
          let '(text, links) := crawl_page pages u c in
          dequeue ++ [Request u]
          ++ (Call <$> page_script pages u text links)
    end.

(** A pass that KeyboardInterrupt, or any other exception, leaves after
    [interrupt] of its steps. *)
Definition crawl_pass_interrupted (interrupt : nat) (max_pages : Z)
    (s : session) : session :=
  foldl act s (take interrupt (crawl_pass_actions max_pages s)).

(** The loop [while True]: [passes] whole passes, and then the pass that
    an exception leaves after [interrupt] of its steps (0: the loop is
    left between two passes), unless a [break] has ended the loop
    before. *)
Fixpoint crawl_loop (passes interrupt : nat) (max_pages : Z) (s : session)
    : session :=
  match passes with
  | 0 => crawl_pass_interrupted interrupt max_pages s
  | S passes' =>
      match crawl_pass max_pages s with
      | (Continue, s') => crawl_loop passes' interrupt max_pages s'
      | (Break, s') => s'
      end
  end.

(** [crawl_continuous]: the seeds, the loop, and the commit of [finally],
    which follows a [break] and an exception alike. *)
Definition crawl_continuous (passes interrupt : nat) (seed_urls : list str)
    (max_pages : Z) (c : conn) : session :=
  let c := run (_add_urls_to_queue 0 seed_urls) c in
  let s := crawl_loop passes interrupt max_pages (Session c 0 []) in
  Session (run [Commit] (connection s)) (pages_this_session s) (fetched s).

End Crawler.

(** ** Vocabulary of the properties *)

(** The pools of the five patterns V, VC, CV, CVC, CVCC. *)
Definition patterns : list (list (list str)) :=
  [[VOWELS]; [VOWELS; CONSONANTS]; [CONSONANTS; VOWELS];
   [CONSONANTS; VOWELS; CONSONANTS];
   [CONSONANTS; VOWELS; CONSONANTS; CONSONANTS]].

(** Every entry of the table is a decomposition, into inventory syllables,
    of the prefix it stands for. *)
Definition table_sound (word : str) (inv : gset str)
    (dp : list (option (list str))) : Prop :=
  ∀ k d, dp !! k = Some (Some d) →
    concat d = take k word ∧ Forall (λ s, s ∈ inv) d.

(** [word[0:k]] is a concatenation of inventory syllables of at most four
    letters each. *)
Definition reachable (word : str) (inv : gset str) (k : nat) : Prop :=
  ∃ d, Forall (λ s, s ∈ inv ∧ length s ≤ 4) d ∧ concat d = take k word.

(** Every reachable position up to [i] has an entry. *)
Definition table_complete (word : str) (inv : gset str) (i : nat)
    (dp : list (option (list str))) : Prop :=
  ∀ k, k ≤ i → k ≤ length word → reachable word inv k →
    is_Some (mjoin (dp !! k)).

(** The table [syllabify_word] starts from. *)
Definition initial_table (word : str) : list (option (list str)) :=
  <[0 := Some []]> (replicate (length word + 1) None).

Definition is_execute (a : call) : Prop :=
  match a with
  | Execute _ => True
  | Commit => False
  end.

(** A call that leaves the table [visited_urls] alone. *)
Definition keeps_visited (a : call) : Prop :=
  match a with
  | Execute (InsertVisited _ _) => False
  | _ => True
  end.

(** The urls waiting in the queue, in row order, and the visited urls. *)
Definition frontier (d : db) : list str := url <$> url_queue d.

Definition visited (d : db) : gset str := dom (visited_urls d).

(** The method that counts into table [k]. *)
Definition update_ngram (k : ngram_table) : str → str → str → list call :=
  match k with
  | Syllables => _update_syllable
  | Monographs => _update_monograph
  | Digraphs => _update_digraph
  | Trigraphs => _update_trigraph
  end.

(** The statements of [process_text] before its commit. *)
Definition text_statements (lower : str → str) (isupper : N → bool)
    (set_iter : list str → list str) (inventory : gset str) (text u : str)
    : list call :=
  set_iter (extract_words lower text true)
  ≫= λ word, process_word lower isupper inventory word u.

(** A part of a pass that commits once, at its end, or does nothing. *)
Definition commit_unit (script : list call) : Prop :=
  script = [] ∨ ∃ body, Forall is_execute body ∧ script = body ++ [Commit].

(** What every pass of the loop keeps: no url was fetched twice, none was
    visited before the session, and the visited urls are those of before
    plus the fetched ones. *)
Definition fetched_once (before : gset str) (s : session) : Prop :=
  NoDup (fetched s)
  ∧ Forall (λ u, u ∉ before) (fetched s)
  ∧ visited (txn (connection s)) = before ∪ list_to_set (fetched s).

(** Enqueueing [urls] that are all queued or visited changes no row of the
    queue. *)
Definition enqueue_skips_known (insert_raises : nat → str → bool) (t : nat)
    (urls : list str) (c : conn) : Prop :=
  Forall (λ u, u ∈ frontier (txn c) ∨ u ∈ visited (txn c)) urls →
  url_queue (txn (run (_add_urls_to_queue insert_raises t urls) c))
  = url_queue (txn c).

(** The store [d] with the AUTOINCREMENT value of the queue at [seq]. *)
Definition with_seq (seq : Z) (d : db) : db :=
  Db (syllables d) (monographs d) (digraphs d) (trigraphs d) (words d)
    (visited_urls d) (url_queue d) seq.

(** What an interrupted pass keeps of [fetched_once]: the last url
    requested is not marked when the pass was left before the mark. *)
Definition fetched_once_interrupted (before : gset str) (s : session)
    : Prop :=
  NoDup (fetched s)
  ∧ Forall (λ u, u ∉ before) (fetched s)
  ∧ (visited (txn (connection s)) = before ∪ list_to_set (fetched s)
     ∨ ∃ marked u,
         fetched s = marked ++ [u]
         ∧ visited (txn (connection s)) = before ∪ list_to_set marked).

(** No queued url is a visited one. *)
Definition frontier_visited_disjoint (d : db) : Prop :=
  ∀ u, u ∈ frontier d → u ∉ visited d.

(** ** Sample data for the examples *)

Definition sample_inventory : gset str :=
  list_to_set [py "a"; py "ra"; py "ba"; py "e"; py "ve"].

Definition sample_url : str := py "http://a.tr/".

Definition sample_now (t : nat) : str := py "2024-05-01T10:00:00".

(** A store in which [sample_url] was crawled and the queue is empty. *)
Definition crawled_db : db :=
  Db ∅ ∅ ∅ ∅ ∅ {[sample_url := sample_now 1]} [] 1.

(** A site whose only page has no text and links to itself. *)
Definition self_link_site (t : nat) (u : str) : option (str * list str) :=
  Some ([], [sample_url]).

(** A site whose pages have the text "araba eve" and no links. *)
Definition text_site (t : nat) (u : str) : option (str * list str) :=
  Some (py "araba eve", []).

(** No INSERT raises. *)
Definition never_raises (t : nat) (u : str) : bool := false.

(** A Python [str] with a lone surrogate cannot be encoded as UTF-8:
    binding it to a statement raises UnicodeEncodeError. *)
Definition surrogate (c : N) : bool := (55296 <=? c)%N && (c <=? 57343)%N.

Definition encode_raises (t : nat) (u : str) : bool := existsb surrogate u.

Definition self_link_session (passes : nat) : session :=
  crawl_continuous str_lower isupper_cp (λ l, l) (λ base href, href)
    (λ u, py "http") (λ u, py "a.tr") sample_now self_link_site
    never_raises sample_inventory passes 0 [sample_url] 0
    (Conn empty_db empty_db).

(** ** Vocabulary of the further properties *)

(** ** The shape of a syllable *)

(** The letter [c] is one of [VOWELS], one of [CONSONANTS]. *)
Definition vowel (c : N) : bool := bool_decide ([c] ∈ VOWELS).

Definition consonant (c : N) : bool := bool_decide ([c] ∈ CONSONANTS).

(** The five patterns V, VC, CV, CVC, CVCC read letter by letter. *)
Definition syllable_shape (s : str) : bool :=
  match s with
  | [v] => vowel v
  | [a; b] => vowel a && consonant b || consonant a && vowel b
  | [c1; v; c2] => consonant c1 && vowel v && consonant c2
  | [c1; v; c2; c3] => consonant c1 && vowel v && consonant c2 && consonant c3
  | _ => false
  end.

(** The number of vowels of a word. *)
Definition vowel_count (word : str) : nat := length (filter (λ c, vowel c) word).

(** ** The queue as AUTOINCREMENT and UNIQUE keep it *)

(** The rows of [url_queue] are in increasing [id] order, no [id] is above
    the largest one ever used, and no url is queued twice. *)
Definition queue_wf (d : db) : Prop :=
  StronglySorted (λ r1 r2, (row_id r1 < row_id r2)%Z) (url_queue d)
  ∧ Forall (λ r, (row_id r ≤ url_queue_seq d)%Z) (url_queue d)
  ∧ NoDup (url <$> url_queue d).

(** ** Statistics *)

(** SELECT SUM(frequency) FROM <table>, with [or 0] for the empty table. *)
Definition sum_frequency (t : gmap str ngram_row) : Z :=
  map_fold (λ _ r total, frequency r + total)%Z 0%Z t.

(** The dictionary [_get_stats] returns. *)
Record stats := Stats {
  pages_crawled : Z;
  syllables_found : Z;
  monographs_found : Z;
  digraphs_found : Z;
  trigraphs_found : Z;
  words_found : Z;
  queue_size : Z;
  total_syllable_occurrences : Z;
  total_monograph_occurrences : Z;
  total_digraph_occurrences : Z;
  total_trigraph_occurrences : Z
}.

Definition _get_stats (c : conn) : stats :=
  let d := txn c in
  let syllable_count := Z.of_nat (size (syllables d)) in
  let monograph_count := Z.of_nat (size (monographs d)) in
  let digraph_count := Z.of_nat (size (digraphs d)) in
  let trigraph_count := Z.of_nat (size (trigraphs d)) in
  let word_count := Z.of_nat (size (words d)) in
  let visited_count := Z.of_nat (size (visited_urls d)) in
  let queue_count := Z.of_nat (length (url_queue d)) in
  let total_syll_freq := sum_frequency (syllables d) in
  let total_mono_freq := sum_frequency (monographs d) in
  let total_di_freq := sum_frequency (digraphs d) in
  let total_tri_freq := sum_frequency (trigraphs d) in
  Stats visited_count syllable_count monograph_count digraph_count
    trigraph_count word_count queue_count total_syll_freq total_mono_freq
    total_di_freq total_tri_freq.

(** The two entries of the statistics that belong to table [k]. *)
Definition found (k : ngram_table) (st : stats) : Z :=
  match k with
  | Syllables => syllables_found st
  | Monographs => monographs_found st
  | Digraphs => digraphs_found st
  | Trigraphs => trigraphs_found st
  end.

Definition occurrences (k : ngram_table) (st : stats) : Z :=
  match k with
  | Syllables => total_syllable_occurrences st
  | Monographs => total_monograph_occurrences st
  | Digraphs => total_digraph_occurrences st
  | Trigraphs => total_trigraph_occurrences st
  end.

(** A token that [process_text] counts: it does not start with a capital
    and it segments; the result is the lowercased token with its
    syllables. *)
Definition turkish_word (lower : str → str) (isupper : N → bool)
    (inventory : gset str) (word : str) : option (str * list str) :=
  if (if word is c :: _ then isupper c else false) then None
  else
    match syllabify_word lower (lower word) inventory with
    | Some (s :: sylls) => Some (lower word, s :: sylls)
    | _ => None
    end.

(** The words of a text that [process_text] counts, in the order it meets
    them. *)
Definition turkish_words (lower : str → str) (isupper : N → bool)
    (set_iter : list str → list str) (inventory : gset str) (text : str)
    : list (str * list str) :=
  omap (turkish_word lower isupper inventory)
    (set_iter (extract_words lower text true)).

(** How many n-grams of table [k] a word with its syllables counts into. *)
Definition ngrams_of (k : ngram_table) (entry : str * list str) : Z :=
  match k with
  | Syllables => Z.of_nat (length (snd entry))
  | Monographs => Z.of_nat (length (fst entry))
  | Digraphs => Z.of_nat (length (fst entry) - 1)
  | Trigraphs => Z.of_nat (length (fst entry) - 2)
  end.

Definition same_table (k1 k2 : ngram_table) : bool :=
  match k1, k2 with
  | Syllables, Syllables | Monographs, Monographs
  | Digraphs, Digraphs | Trigraphs, Trigraphs => true
  | _, _ => false
  end.

(** How many calls of a script count into table [k]. *)
Definition upserts (k : ngram_table) (script : list call) : Z :=
  foldr (λ a n,
           match a with
           | Execute (Upsert k' _ _ _) =>
               if same_table k k' then (n + 1)%Z else n
           | _ => n
           end) 0%Z script.

(** The n-grams of table [k] that a list of words counts into. *)
Definition total_ngrams (k : ngram_table) (entries : list (str * list str))
    : Z :=
  foldr (λ entry n, (ngrams_of k entry + n)%Z) 0%Z entries.

(** The pages counted are the urls fetched, and they respect a positive
    [max_pages]. *)
Definition within_budget (max_pages : Z) (s : session) : Prop :=
  pages_this_session s = length (fetched s)
  ∧ ((0 < max_pages)%Z → (Z.of_nat (pages_this_session s) ≤ max_pages)%Z).

(** ** Counting syllables of a word list *)

(** [Counter.update(iterable)]: one more for each element, from 0 for a
    key that is not there. *)
Definition counter_update (counter : gmap str Z) (syllables : list str)
    : gmap str Z :=
  foldl (λ counter s, <[s := (default 0 (counter !! s) + 1)%Z]> counter)
    counter syllables.

(** [analyze_syllables]: the counter it returns, and the two numbers it
    prints, [successful] and [failed]. *)
Definition analyze_syllables (lower : str → str) (words : list str)
    (all_syllables_set : gset str) : gmap str Z * nat * nat :=
  foldl (λ '(syllable_counter, successful, failed) word,
           match syllabify_word lower word all_syllables_set with
           | Some ((_ :: _) as syllables) =>
               (counter_update syllable_counter syllables,
                successful + 1, failed)
           | _ => (syllable_counter, successful, failed + 1)
           end)
    (∅, 0, 0) words.

(** The sum of the counts of a counter. *)
Definition counter_total (counter : gmap str Z) : Z :=
  map_fold (λ _ n total, n + total)%Z 0%Z counter.

(** The syllables of the words of a list that segment, word by word. *)
Definition segmented (lower : str → str) (inv : gset str)
    (words : list str) : list (list str) :=
  omap (λ word,
          match syllabify_word lower word inv with
          | Some ((_ :: _) as syllables) => Some syllables
          | _ => None
          end) words.

(** * Properties *)

#[local] Set Warnings "-clear-no-such-hyp".
#[local] Set Default Proof Using "Type".

(** ** Segmentation: the table is sound and complete *)

Section SegmentationFacts.
Context (word : str) (inv : gset str).

Abbreviation table := (list (option (list str))).
Local Abbreviation sound := (table_sound word inv).
Local Abbreviation reach := (reachable word inv).
Local Abbreviation complete := (table_complete word inv).
Local Abbreviation dp0 := (initial_table word).

Lemma slice_extends j i :
  j ≤ i → take j word ++ slice word j i = take i word.
Proof.
  intros Hji. unfold slice. rewrite take_take_drop. f_equal. lia.
Qed.

Lemma length_scan dp i js : length (scan word inv dp i js) = length dp.
Proof.
  induction js as [|j js IH]; simpl; [done|].
  destruct (mjoin (dp !! j)); [|done].
  case_bool_decide; [by rewrite length_insert|done].
Qed.

Lemma scan_other dp i js k :
  k ≠ i → scan word inv dp i js !! k = dp !! k.
Proof.
  intros Hk. induction js as [|j js IH]; simpl; [done|].
  destruct (mjoin (dp !! j)); [|done].
  case_bool_decide; [by rewrite list_lookup_insert_ne|done].
Qed.

Lemma mjoin_lookup_Some (dp : table) j d :
  mjoin (dp !! j) = Some d ↔ dp !! j = Some (Some d).
Proof. destruct (dp !! j) as [[?|]|]; simpl; naive_solver. Qed.

Lemma scan_sound dp i js :
  sound dp → Forall (λ j, j ≤ i) js → sound (scan word inv dp i js).
Proof.
  intros Hdp. induction 1 as [|j js Hj _ IH]; simpl; [done|].
  destruct (mjoin (dp !! j)) as [dp_j|] eqn:Hdpj; [|done].
  case_bool_decide as Hin; [|done].
  apply mjoin_lookup_Some, Hdp in Hdpj as [Hcat Hall].
  intros k d [(-> & [= <-] & _)|[_ Hk]]%list_lookup_insert_Some;
    [|by apply Hdp].
  split.
  - rewrite concat_app, Hcat. simpl. rewrite app_nil_r.
    by apply slice_extends.
  - apply Forall_app. split; [done|]. by apply Forall_singleton.
Qed.

(** The inner loop finds an entry for [i] as soon as one start position
    qualifies. *)
Lemma scan_finds dp i js j :
  i < length dp → j ∈ js → is_Some (mjoin (dp !! j)) →
  slice word j i ∈ inv →
  is_Some (mjoin (scan word inv dp i js !! i)).
Proof.
  intros Hi Hj Hdpj Hin. induction js as [|j' js IH]; [by inversion Hj|].
  simpl. destruct (mjoin (dp !! j')) as [d'|] eqn:Hd'.
  - case_bool_decide as Hin'.
    + rewrite list_lookup_insert_eq by done. by eexists.
    + apply elem_of_cons in Hj as [->|Hj]; [done|]. by apply IH.
  - apply elem_of_cons in Hj as [->|Hj]; [|by apply IH].
    rewrite Hd' in Hdpj. by destruct Hdpj.
Qed.

(** A reachable position past the start is reached from a reachable
    position at most four letters before it, by an inventory syllable. *)
Lemma reach_last i :
  0 < i → i ≤ length word → reach i →
  ∃ j, i - 4 ≤ j ∧ j < i ∧ reach j ∧ slice word j i ∈ inv.
Proof.
  intros Hpos Hlen (d & Hd & Hcat). revert i Hpos Hlen Hd Hcat.
  induction d as [|s d IH] using rev_ind; intros i Hpos Hlen Hd Hcat.
  - simpl in Hcat. symmetry in Hcat. apply (f_equal length) in Hcat.
    rewrite length_take in Hcat. simpl in Hcat. lia.
  - apply Forall_app in Hd as [Hd [Hs Hs4]%Forall_singleton].
    rewrite concat_app in Hcat. simpl in Hcat. rewrite app_nil_r in Hcat.
    destruct s as [|c s'].
    { rewrite app_nil_r in Hcat. by apply IH. }
    set (s := c :: s') in *.
    assert (Hi : length (concat d) + length s = i).
    { apply (f_equal length) in Hcat.
      rewrite length_app, length_take in Hcat. lia. }
    assert (0 < length s) by (subst s; simpl; lia).
    exists (length (concat d)).
    assert (Hpre : concat d = take (length (concat d)) word).
    { apply (f_equal (take (length (concat d)))) in Hcat.
      rewrite take_app_length, take_take in Hcat.
      by rewrite Nat.min_l in Hcat by lia. }
    split; [lia|]. split; [lia|]. split; [by exists d|].
    assert (slice word (length (concat d)) i = s) as ->; [|done].
    apply (app_inv_head (take (length (concat d)) word)).
    rewrite slice_extends by lia. by rewrite <- Hpre.
Qed.

Lemma elem_of_starts j i : j ∈ starts i ↔ i - 4 ≤ j ∧ j < i.
Proof. unfold starts. rewrite elem_of_seq. lia. Qed.

Lemma scan_step dp i :
  0 < i → i < length dp → sound dp → complete (i - 1) dp →
  sound (scan word inv dp i (starts i))
  ∧ complete i (scan word inv dp i (starts i)).
Proof.
  intros Hpos Hi Hsound Hcomplete. split.
  - apply scan_sound; [done|]. apply Forall_forall.
    intros j Hj%elem_of_starts. lia.
  - intros k Hk Hlen Hreach. destruct (decide (k = i)) as [->|Hne].
    + destruct (reach_last i) as (j & Hlo & Hhi & Hrj & Hin); [done..|].
      apply (scan_finds dp i (starts i) j); [done| |apply Hcomplete|done].
      * apply elem_of_starts. lia.
      * lia.
      * lia.
      * done.
    + rewrite scan_other by done. apply Hcomplete; [lia|done..].
Qed.

Lemma fill_ok m : ∀ a dp,
  0 < a → a + m ≤ length dp → sound dp → complete (a - 1) dp →
  let dp' := fill word inv dp (seq a m) in
  length dp' = length dp ∧ sound dp' ∧ complete (a + m - 1) dp'.
Proof.
  induction m as [|m IH]; intros a dp Ha Hlen Hsound Hcomplete; simpl.
  { by replace (a + 0 - 1) with (a - 1) by lia. }
  destruct (scan_step dp a) as [Hs Hc]; [lia..|done|done|].
  destruct (IH (S a) (scan word inv dp a (starts a))) as (Hl' & Hs' & Hc').
  - lia.
  - rewrite length_scan. lia.
  - done.
  - by replace (S a - 1) with a by lia.
  - unfold fill in *. simpl in *. rewrite length_scan in Hl'.
    split; [done|]. split; [done|].
    by replace (a + S m - 1) with (S a + m - 1) by lia.
Qed.

Lemma dp0_sound : sound dp0.
Proof.
  intros k d [(<- & [= <-] & _)|[_ Hk]]%list_lookup_insert_Some.
  - by rewrite take_0.
  - by apply lookup_replicate_1 in Hk as [? _].
Qed.

Lemma dp0_complete : complete 0 dp0.
Proof.
  intros k Hk _ _. replace k with 0 by lia. unfold initial_table.
  rewrite list_lookup_insert_eq; [by eexists|].
  rewrite length_replicate. lia.
Qed.

Lemma filled_table :
  let dp := fill word inv dp0 (seq 1 (length word)) in
  length dp = length word + 1 ∧ sound dp ∧ complete (length word) dp.
Proof.
  assert (Hl0 : length dp0 = length word + 1).
  { unfold initial_table. by rewrite length_insert, length_replicate. }
  destruct (fill_ok (length word) 1 dp0) as (Hl & Hs & Hc);
    [lia|lia|apply dp0_sound|apply dp0_complete|].
  simpl. rewrite Hl. split; [done|]. split; [done|].
  by replace (length word) with (1 + length word - 1) at 1 by lia.
Qed.
End SegmentationFacts.

Section SegmentationResults.
Variable lower : str → str.

Lemma syllabify_word_unfold w inv :
  syllabify_word lower w inv
  = mjoin (fill (lower w) inv (initial_table (lower w)) (seq 1 (length (lower w)))
           !! length (lower w)).
Proof. reflexivity. Qed.

(** A result is a decomposition of the lowercased word into inventory
    syllables. *)
Lemma syllabify_word_sound w inv sylls :
  syllabify_word lower w inv = Some sylls →
  concat sylls = lower w ∧ Forall (λ s, s ∈ inv) sylls.
Proof.
  rewrite syllabify_word_unfold.
  destruct (filled_table (lower w) inv) as (_ & Hs & _).
  intros H%mjoin_lookup_Some%Hs. by rewrite take_ge in H by lia.
Qed.

(** A lowercased word that has a decomposition gets a result. *)
Lemma syllabify_word_complete w inv d :
  Forall (λ s, s ∈ inv ∧ length s ≤ 4) d → concat d = lower w →
  is_Some (syllabify_word lower w inv).
Proof.
  intros Hd Hcat. rewrite syllabify_word_unfold.
  destruct (filled_table (lower w) inv) as (_ & _ & Hc).
  apply Hc; [done..|]. exists d. by rewrite take_ge by lia.
Qed.
End SegmentationResults.

Section Product.
Context {A : Type}.
Implicit Types (pools : list (list A)) (t : list A).

Lemma length_product pools :
  length (product pools) = foldr (λ pool n, length pool * n) 1 pools.
Proof.
  induction pools as [|pool pools IH]; [done|].
  change (product (pool :: pools))
    with (pool ≫= λ x, (x ::.) <$> product pools).
  change (length pool * foldr (λ pool n, length pool * n) 1 pools
          = length (pool ≫= λ x, (x ::.) <$> product pools)) in |- *
    || idtac.
  cbn [foldr]. rewrite <- IH.
  induction pool as [|x pool IHp]; [done|].
  rewrite bind_cons, length_app, length_fmap, IHp. simpl. lia.
Qed.

Lemma elem_of_product t pools :
  t ∈ product pools ↔ Forall2 (λ x pool, x ∈ pool) t pools.
Proof.
  revert t. induction pools as [|pool pools IH]; intros t; simpl.
  - rewrite list_elem_of_singleton. split; [intros ->; constructor|].
    by inversion 1.
  - rewrite list_elem_of_bind. split.
    + intros (x & (t' & -> & Ht')%list_elem_of_fmap & Hx).
      constructor; [done|]. by apply IH.
    + inversion 1 as [|x ? t' ? Hx Ht']; subst. exists x. split; [|done].
      apply list_elem_of_fmap. exists t'. split; [done|]. by apply IH.
Qed.

Lemma NoDup_product pools :
  Forall NoDup pools → NoDup (product pools).
Proof.
  induction 1 as [|pool pools Hpool _ IH]; simpl.
  { apply NoDup_singleton. }
  apply NoDup_bind; [|intros x _|done].
  - intros x1 x2 t _ _ (? & -> & _)%list_elem_of_fmap
      (? & [= -> _] & _)%list_elem_of_fmap. done.
  - apply NoDup_fmap_2; [|done]. by intros ?? [=].
Qed.

Lemma tuple_Forall (Q : A → Prop) t pools :
  Forall2 (λ x pool, x ∈ pool) t pools → Forall (Forall Q) pools →
  Forall Q t.
Proof.
  induction 1 as [|x pool t pools Hx _ IH]; inversion 1 as [|?? Hpool ?];
    subst; constructor; [|by apply IH].
  by eapply Forall_forall in Hpool.
Qed.
End Product.

(** Tuples of single letters are determined by their concatenation. *)
Lemma join_tuple_inj (pools : list (list str)) t1 t2 :
  Forall (Forall (λ x, length x = 1)) pools →
  Forall2 (λ x pool, x ∈ pool) t1 pools →
  Forall2 (λ x pool, x ∈ pool) t2 pools →
  str_join t1 = str_join t2 → t1 = t2.
Proof.
  intros Hpools H1. revert t2 Hpools.
  induction H1 as [|x1 pool t1 pools Hx1 _ IH]; intros t2 Hpools H2 Hjoin.
  { by inversion H2. }
  inversion H2 as [|x2 ? t2' ? Hx2 Ht2]; subst.
  inversion Hpools as [|?? Hpool Hpools']; subst.
  pose proof (proj1 (Forall_forall _ _) Hpool _ Hx1) as Hl1.
  pose proof (proj1 (Forall_forall _ _) Hpool _ Hx2) as Hl2.
  unfold str_join in *. simpl in Hjoin.
  apply app_inj_1 in Hjoin as [-> Hrest]; [|congruence].
  f_equal. by apply IH.
Qed.

Lemma length_join_tuple (pools : list (list str)) t :
  Forall (Forall (λ x, length x = 1)) pools →
  Forall2 (λ x pool, x ∈ pool) t pools →
  length (str_join t) = length pools.
Proof.
  intros Hpools Ht. revert Hpools.
  induction Ht as [|x pool t pools Hx _ IH]; inversion 1 as [|?? Hpool ?];
    subst; [done|].
  unfold str_join in *. simpl. rewrite length_app, IH by done.
  by rewrite (proj1 (Forall_forall _ _) Hpool _ Hx).
Qed.

Lemma VOWELS_single : Forall (λ x : str, length x = 1) VOWELS.
Proof. repeat constructor. Qed.

Lemma CONSONANTS_single : Forall (λ x : str, length x = 1) CONSONANTS.
Proof. repeat constructor. Qed.

Lemma NoDup_VOWELS : NoDup VOWELS.
Proof. compute_done. Qed.

Lemma NoDup_CONSONANTS : NoDup CONSONANTS.
Proof. compute_done. Qed.

Lemma VOWELS_not_CONSONANTS x : x ∈ VOWELS → x ∉ CONSONANTS.
Proof.
  revert x. apply Forall_forall. compute_done.
Qed.

Lemma patterns_single :
  Forall (Forall (Forall (λ x : str, length x = 1))) patterns.
Proof.
  pose proof VOWELS_single. pose proof CONSONANTS_single.
  unfold patterns. repeat (assumption || apply Forall_cons_2 || apply Forall_nil_2).
Qed.

Lemma patterns_NoDup : Forall (Forall NoDup) patterns.
Proof.
  pose proof NoDup_VOWELS. pose proof NoDup_CONSONANTS.
  unfold patterns. repeat (assumption || apply Forall_cons_2 || apply Forall_nil_2).
Qed.

Lemma generate_all_syllables_groups :
  generate_all_syllables
  = v_syllables ++ vc_syllables ++ cv_syllables ++ cvc_syllables
    ++ cvcc_syllables.
Proof.
  unfold generate_all_syllables. cbv zeta.
  rewrite app_nil_l, <- !app_assoc. reflexivity.
Qed.

Lemma v_syllables_pattern : v_syllables = str_join <$> product [VOWELS].
Proof. reflexivity. Qed.

(** Every member of the inventory is the concatenation of a tuple of one of
    the five patterns. *)
Lemma elem_of_generate_all_syllables s :
  s ∈ generate_all_syllables ↔
  ∃ pools, pools ∈ patterns ∧ s ∈ str_join <$> product pools.
Proof.
  rewrite generate_all_syllables_groups, v_syllables_pattern, !elem_of_app.
  unfold patterns, vc_syllables, cv_syllables, cvc_syllables, cvcc_syllables.
  split.
  - intros [H|[H|[H|[H|H]]]]; eexists; (split; [|exact H]);
      rewrite !elem_of_cons; auto 10.
  - intros (pools & Hpools & H). rewrite !elem_of_cons in Hpools.
    destruct Hpools as [->|[->|[->|[->|[->|Hnil]]]]]; auto 10.
    by apply elem_of_nil in Hnil.
Qed.

Lemma elem_of_pattern s pools :
  s ∈ str_join <$> product pools ↔
  ∃ t, s = str_join t ∧ Forall2 (λ x pool, x ∈ pool) t pools.
Proof.
  rewrite list_elem_of_fmap. by setoid_rewrite elem_of_product.
Qed.

Lemma length_pattern s pools :
  pools ∈ patterns → s ∈ str_join <$> product pools →
  length s = length pools.
Proof.
  intros Hpools (t & -> & Ht)%elem_of_pattern.
  apply length_join_tuple; [|done].
  by apply (proj1 (Forall_forall _ _) patterns_single).
Qed.

Lemma NoDup_pattern pools :
  pools ∈ patterns → NoDup (str_join <$> product pools).
Proof.
  intros Hpools. apply NoDup_fmap_2_strong.
  - intros t1 t2 H1%elem_of_product H2%elem_of_product.
    apply (join_tuple_inj pools); [|done..].
    by apply (proj1 (Forall_forall _ _) patterns_single).
  - apply NoDup_product.
    by apply (proj1 (Forall_forall _ _) patterns_NoDup).
Qed.

Lemma pattern_sizes :
  Z.of_nat (length v_syllables) = 8%Z ∧
  Z.of_nat (length vc_syllables) = 168%Z ∧
  Z.of_nat (length cv_syllables) = 168%Z ∧
  Z.of_nat (length cvc_syllables) = 3528%Z ∧
  Z.of_nat (length cvcc_syllables) = 74088%Z.
Proof.
  unfold vc_syllables, cv_syllables, cvc_syllables, cvcc_syllables.
  rewrite !length_fmap, !length_product. cbn [foldr].
  change (length v_syllables) with 8. change (length VOWELS) with 8.
  change (length CONSONANTS) with 21. lia.
Qed.

Lemma generate_all_syllables_patterns :
  generate_all_syllables = patterns ≫= λ pools, str_join <$> product pools.
Proof.
  rewrite generate_all_syllables_groups, v_syllables_pattern.
  unfold patterns. rewrite 4!bind_cons, bind_singleton. reflexivity.
Qed.

(** A VC syllable starts with a vowel, a CV syllable with a consonant. *)
Lemma vc_not_cv s :
  s ∈ str_join <$> product [VOWELS; CONSONANTS] →
  s ∈ str_join <$> product [CONSONANTS; VOWELS] → False.
Proof.
  intros (t1 & -> & H1)%elem_of_pattern (t2 & Ht & H2)%elem_of_pattern.
  inversion H1 as [|x1 ? ? ? Hx1 _]; subst.
  inversion H2 as [|x2 ? ? ? Hx2 _]; subst.
  unfold str_join in Ht. simpl in Ht.
  apply app_inj_1 in Ht as [-> _].
  - by apply VOWELS_not_CONSONANTS in Hx1.
  - rewrite (proj1 (Forall_forall _ _) VOWELS_single _ Hx1).
    by rewrite (proj1 (Forall_forall _ _) CONSONANTS_single _ Hx2).
Qed.

(** A syllable belongs to one pattern only. *)
Lemma pattern_unique s p1 p2 :
  p1 ∈ patterns → p2 ∈ patterns →
  s ∈ str_join <$> product p1 → s ∈ str_join <$> product p2 → p1 = p2.
Proof.
  intros Hp1 Hp2 H1 H2.
  pose proof (length_pattern s p1 Hp1 H1) as Hl1.
  pose proof (length_pattern s p2 Hp2 H2) as Hl2.
  unfold patterns in Hp1, Hp2. rewrite !elem_of_cons in Hp1, Hp2.
  destruct Hp1 as [->|[->|[->|[->|[->|[]%elem_of_nil]]]]];
    destruct Hp2 as [->|[->|[->|[->|[->|[]%elem_of_nil]]]]];
    try reflexivity; try (simpl in Hl1, Hl2; congruence).
  - by destruct (vc_not_cv s).
  - by destruct (vc_not_cv s).
Qed.

Lemma NoDup_patterns : NoDup patterns.
Proof. compute_done. Qed.

Lemma NoDup_generate_all_syllables : NoDup generate_all_syllables.
Proof.
  rewrite generate_all_syllables_patterns. apply NoDup_bind.
  - intros p1 p2 s. apply pattern_unique.
  - intros pools. apply NoDup_pattern.
  - apply NoDup_patterns.
Qed.

(** The letters of the alphabets are small letters: [str_lower] keeps
    them. *)
Lemma patterns_lowercase :
  Forall (Forall (Forall (λ x : str, str_lower x = x))) patterns.
Proof.
  assert (Forall (λ x : str, str_lower x = x) VOWELS) by compute_done.
  assert (Forall (λ x : str, str_lower x = x) CONSONANTS) by compute_done.
  unfold patterns.
  repeat (assumption || apply Forall_cons_2 || apply Forall_nil_2).
Qed.

Lemma str_lower_concat (t : list str) :
  Forall (λ x, str_lower x = x) t → str_lower (concat t) = concat t.
Proof.
  induction 1 as [|x t Hx _ IH]; [done|].
  simpl. unfold str_lower in *. by rewrite bind_app, Hx, IH.
Qed.

Lemma inventory_lowercase s :
  s ∈ generate_all_syllables → str_lower s = s.
Proof.
  intros (pools & Hpools & (t & -> & Ht)%elem_of_pattern)
    %elem_of_generate_all_syllables.
  apply str_lower_concat. apply (tuple_Forall _ t pools); [done|].
  by apply (proj1 (Forall_forall _ _) patterns_lowercase).
Qed.

Lemma inventory_length s :
  s ∈ generate_all_syllables → 1 ≤ length s ≤ 4.
Proof.
  intros (pools & Hpools & Hs)%elem_of_generate_all_syllables.
  rewrite (length_pattern s pools) by done.
  unfold patterns in Hpools. rewrite !elem_of_cons in Hpools.
  destruct Hpools as [->|[->|[->|[->|[->|[]%elem_of_nil]]]]]; simpl; lia.
Qed.

Lemma elem_of_all_syllables_set s :
  s ∈ all_syllables_set ↔ s ∈ generate_all_syllables.
Proof. unfold all_syllables_set. apply elem_of_list_to_set. Qed.

Ltac split_code_point :=
  repeat match goal with
    | |- context [(?a <=? ?b)%N] => destruct (N.leb_spec a b)
    | |- context [(?a =? ?b)%N] => destruct (N.eqb_spec a b)
    end.

Lemma lower_cp_idemp c : lower_cp c ≫= lower_cp = lower_cp c.
Proof.
  unfold lower_cp at 2 3. split_code_point; simpl; subst;
    try reflexivity; try lia.
  all: unfold lower_cp; split_code_point; simpl;
    (reflexivity || lia).
Qed.

Lemma str_lower_idemp w : str_lower (str_lower w) = str_lower w.
Proof.
  unfold str_lower. induction w as [|c w IH]; [done|].
  by rewrite bind_cons, bind_app, IH, lower_cp_idemp.
Qed.

(** ** The store: statements and transactions *)

Lemma rows_set_rows k t d : rows k (set_rows k t d) = t.
Proof. by destruct k. Qed.

Lemma rows_set_rows_ne k k' t d :
  k ≠ k' → rows k' (set_rows k t d) = rows k' d.
Proof. by destruct k, k'. Qed.

Lemma upsert_lookup key word u t :
  upsert key word u t !! key
  = Some (NgramRow (from_option (λ r, frequency r + 1)%Z 1%Z (t !! key))
            word u).
Proof.
  unfold upsert. destruct (t !! key) as [r|]; by rewrite lookup_insert_eq.
Qed.

Lemma upsert_lookup_ne key key' word u t :
  key ≠ key' → upsert key word u t !! key' = t !! key'.
Proof.
  intros. unfold upsert. destruct (t !! key); by rewrite lookup_insert_ne.
Qed.

Lemma run_cons a script c : run (a :: script) c = run script (step c a).
Proof. reflexivity. Qed.

Lemma run_app script1 script2 c :
  run (script1 ++ script2) c = run script2 (run script1 c).
Proof. apply foldl_app. Qed.

Lemma run_update_ngram k key word u c :
  run (update_ngram k key word u) c
  = Conn (disk c) (execute (Upsert k key word u) (txn c)).
Proof. by destruct k. Qed.

(** Statements alone do not reach the disk. *)
Lemma disk_run_executes script c :
  Forall is_execute script → disk (run script c) = disk c.
Proof.
  intros H. revert c. induction H as [|a script Ha _ IH]; intros c; [done|].
  destruct a; [|done]. simpl. by rewrite IH.
Qed.

Lemma prefix_snoc_inv {A} (l1 l2 : list A) x :
  l1 `prefix_of` l2 ++ [x] → l1 `prefix_of` l2 ∨ l1 = l2 ++ [x].
Proof.
  intros [k Hk]. destruct k as [|y k _] using rev_ind.
  - right. by rewrite app_nil_r in Hk.
  - left. rewrite app_assoc in Hk. apply app_inj_tail in Hk as [-> _].
    by eexists.
Qed.

Lemma prefix_app_cases {A} (l k1 k2 : list A) :
  l `prefix_of` k1 ++ k2 →
  l `prefix_of` k1 ∨ ∃ l', l = k1 ++ l' ∧ l' `prefix_of` k2.
Proof.
  revert l. induction k1 as [|x k1 IH]; intros l Hl.
  - right. by exists l.
  - destruct l as [|y l]; [left; apply prefix_nil|].
    simpl in Hl. pose proof (prefix_cons_inv_1 _ _ _ _ Hl) as ->.
    apply prefix_cons_inv_2, IH in Hl as [Hl|(l' & -> & Hl')].
    + left. by apply prefix_cons.
    + right. by exists l'.
Qed.

Lemma Forall_prefix {A} (P : A → Prop) (l1 l2 : list A) :
  l1 `prefix_of` l2 → Forall P l2 → Forall P l1.
Proof. intros [k ->] H. by apply Forall_app in H as [? _]. Qed.

(** Statements followed by one commit are all-or-nothing against a
    crash. *)
Lemma batch_all_or_nothing script c :
  Forall is_execute script → all_or_nothing Crash (script ++ [Commit]) c.
Proof.
  intros Hscript done [Hdone| ->]%prefix_snoc_inv; [left|by right].
  apply disk_run_executes. by eapply Forall_prefix.
Qed.

(** The commit of [finally] makes durable what the connection sees. *)
Lemma durable_Raise done c : durable Raise done c = txn (run done c).
Proof. unfold durable. by rewrite run_app. Qed.

(** A stop inside a batch leaves the disk as the batch found it. *)
Lemma batch_disk script c done :
  Forall is_execute script → done `prefix_of` script ++ [Commit] →
  disk (run done c) = disk c ∨ done = script ++ [Commit].
Proof.
  intros Hscript [Hdone| ->]%prefix_snoc_inv; [left|by right].
  apply disk_run_executes. by eapply Forall_prefix.
Qed.

Lemma visited_urls_run script c :
  Forall keeps_visited script →
  visited_urls (txn (run script c)) = visited_urls (txn c).
Proof.
  intros H. revert c. induction H as [|a script Ha _ IH]; intros c; [done|].
  simpl. rewrite IH. destruct a as [q|]; [|done].
  destruct q as [k| | | |]; simpl in *; try done.
  - by destruct k.
  - by case_bool_decide.
Qed.

Lemma queue_inserts_calls (P : call → Prop) (raises : nat → str → bool)
    (t : nat) (urls : list str) :
  (∀ q, keeps_visited (Execute q) → P (Execute q)) →
  Forall P
    (urls ≫= λ u, if raises t u then [] else [Execute (InsertQueue u)]).
Proof.
  intros HP. induction urls as [|u urls IH]; [apply Forall_nil_2|].
  rewrite bind_cons. apply Forall_app. split; [|exact IH].
  destruct (raises t u); [apply Forall_nil_2|]. by apply Forall_singleton, HP.
Qed.

Lemma is_execute_Execute q : is_execute (Execute q).
Proof. done. Qed.

Lemma commit_unit_disk script c done :
  commit_unit script → done `prefix_of` script →
  disk (run done c) = disk c ∨ done = script.
Proof.
  intros [->|(body & Hbody & ->)] Hdone.
  - right. by apply prefix_nil_inv.
  - by apply batch_disk.
Qed.

Lemma mark_unit u ts : commit_unit (_mark_url_visited u ts).
Proof. right. exists [Execute (InsertVisited u ts)]. by split; [repeat constructor|]. Qed.

Lemma links_unit (raises : nat → str → bool) (t : nat)
    (links : list str) :
  commit_unit (if links is [] then [] else _add_urls_to_queue raises t links).
Proof.
  destruct links; [by left|]. right. eexists. split; [|done].
  apply queue_inserts_calls. done.
Qed.

(** *** The queue *)

Lemma InsertQueue_queued u d :
  u ∈ frontier d →
  execute (InsertQueue u) d = with_seq (url_queue_seq d + 1) d.
Proof. intros Hu. simpl. by rewrite bool_decide_eq_true_2. Qed.

Lemma InsertQueue_new u d :
  u ∉ frontier d →
  frontier (execute (InsertQueue u) d) = frontier d ++ [u].
Proof.
  intros Hu. simpl. rewrite bool_decide_eq_false_2 by done.
  unfold frontier. simpl. by rewrite fmap_app.
Qed.

(** The urls of a list whose INSERT does not raise. *)
Lemma run_add_urls (raises : nat → str → bool) (t : nat) (urls : list str)
    c :
  run (_add_urls_to_queue raises t urls) c
  = (let d := foldl (λ d u, execute (InsertQueue u) d) (txn c)
                (filter (λ u, raises t u = false) urls) in
     Conn d d).
Proof.
  unfold _add_urls_to_queue. rewrite run_app. simpl.
  assert (txn (run (urls ≫= λ u, if raises t u then []
                                 else [Execute (InsertQueue u)]) c)
          = foldl (λ d u, execute (InsertQueue u) d) (txn c)
              (filter (λ u, raises t u = false) urls)) as ->;
    [|done].
  revert c. induction urls as [|u urls IH]; intros c; [done|].
  rewrite bind_cons, run_app, IH, filter_cons.
  destruct (raises t u); [done|]. by rewrite decide_True.
Qed.

Lemma frontier_InsertQueue u d :
  frontier (execute (InsertQueue u) d)
  = if bool_decide (u ∈ frontier d) then frontier d else frontier d ++ [u].
Proof.
  case_bool_decide; [by rewrite InsertQueue_queued|by apply InsertQueue_new].
Qed.

(** Inserts into the queue leave the other tables alone. *)
Lemma foldl_InsertQueue_frame (urls : list str) d :
  let d' := foldl (λ d u, execute (InsertQueue u) d) d urls in
  visited_urls d' = visited_urls d ∧ words d' = words d
  ∧ (∀ k, rows k d' = rows k d)
  ∧ url_queue_seq d' = (url_queue_seq d + Z.of_nat (length urls))%Z.
Proof.
  revert d. induction urls as [|u urls IH]; intros d.
  { cbn [foldl length]. repeat split; lia. }
  cbn [foldl]. destruct (IH (execute (InsertQueue u) d))
    as (Hv & Hw & Hr & Hs).
  assert (visited_urls (execute (InsertQueue u) d) = visited_urls d
          ∧ words (execute (InsertQueue u) d) = words d
          ∧ (∀ k, rows k (execute (InsertQueue u) d) = rows k d)
          ∧ url_queue_seq (execute (InsertQueue u) d)
            = (url_queue_seq d + 1)%Z) as (Hv1 & Hw1 & Hr1 & Hs1).
  { cbn [execute]. cbv zeta. destruct (bool_decide _);
      (split; [done|]; split; [done|]; split; [by intros []|done]). }
  cbv zeta. rewrite Hv, Hw, Hs, Hv1, Hw1, Hs1. cbn [length].
  split; [done|]. split; [done|]. split; [|lia].
  intros k. by rewrite Hr, Hr1.
Qed.

Lemma visited_add_urls (raises : nat → str → bool) (t : nat)
    (urls : list str) c :
  visited (txn (run (_add_urls_to_queue raises t urls) c))
  = visited (txn c).
Proof.
  rewrite run_add_urls. cbv zeta. cbn [txn]. unfold visited.
  by destruct (foldl_InsertQueue_frame
                 (filter (λ u, raises t u = false) urls) (txn c)) as [-> _].
Qed.

(** C3, as the code has it: enqueueing skips every url that is already in
    the queue, a silent no-op: enqueueing urls that are all queued changes
    no row of the queue and no other table, only the AUTOINCREMENT value of
    the queue advances by one for each insert that is ignored. A url whose
    INSERT raises is skipped as silently. A url that is not queued, and
    whose INSERT does not raise, is appended at the tail whether or not it
    is visited: the visited urls are not consulted and not changed. The
    queue keeps its order and stays free of duplicates. *)
Theorem enqueue_skips_queued (raises : nat → str → bool) (t : nat)
    (urls : list str) c :
  let c' := run (_add_urls_to_queue raises t urls) c in
  (Forall (λ u, u ∈ frontier (txn c)) urls →
   txn c'
   = with_seq
       (url_queue_seq (txn c)
        + Z.of_nat (length (filter (λ u, raises t u = false) urls)))
       (txn c))
  ∧ (∀ u, u ∉ frontier (txn c) → raises t u = false →
       frontier (txn (run (_add_urls_to_queue raises t [u]) c))
       = frontier (txn c) ++ [u])
  ∧ (∀ u, raises t u = true →
       txn (run (_add_urls_to_queue raises t [u]) c) = txn c)
  ∧ (NoDup (frontier (txn c)) → NoDup (frontier (txn c')))
  ∧ frontier (txn c) `prefix_of` frontier (txn c')
  ∧ visited (txn c') = visited (txn c).
Proof.
  intros c'. subst c'. rewrite run_add_urls. cbv zeta. cbn [txn].
  split; [|split; [|split; [|split; [|split]]]].
  - intros H.
    assert (Hall : Forall (λ u, u ∈ frontier (txn c))
                     (filter (λ u, raises t u = false) urls)).
    { apply Forall_forall. intros u [_ Hu]%list_elem_of_filter.
      by apply (proj1 (Forall_forall _ _) H). }
    revert Hall. generalize (filter (λ u, raises t u = false) urls) as l.
    generalize (txn c) as d. intros d l. revert d.
    induction l as [|u l IH]; intros d Hall.
    { cbn [foldl length]. destruct d. unfold with_seq. cbn. f_equal. lia. }
    inversion Hall as [|?? Hu Hl]; subst. cbn [foldl].
    rewrite InsertQueue_queued by done. rewrite IH by done.
    unfold with_seq. cbn [syllables monographs digraphs trigraphs words
      visited_urls url_queue url_queue_seq length]. f_equal. lia.
  - intros u Hu Hok. rewrite run_add_urls. cbv zeta. cbn [txn].
    rewrite filter_cons, decide_True by done. cbn [filter list_filter foldl].
    by apply InsertQueue_new.
  - intros u Hraises. rewrite run_add_urls. cbv zeta. cbn [txn].
    rewrite filter_cons, decide_False by congruence. done.
  - generalize (filter (λ u, raises t u = false) urls) as l.
    generalize (txn c) as d. intros d l. revert d.
    induction l as [|u l IH]; intros d Hd; [done|].
    cbn [foldl]. apply IH. rewrite frontier_InsertQueue.
    case_bool_decide; [done|].
    apply NoDup_app. split; [done|]. split; [|apply NoDup_singleton].
    intros x Hx ->%list_elem_of_singleton. done.
  - generalize (filter (λ u, raises t u = false) urls) as l.
    generalize (txn c) as d. intros d l. revert d.
    induction l as [|u l IH]; intros d; [done|].
    cbn [foldl]. etrans; [|apply IH]. rewrite frontier_InsertQueue.
    case_bool_decide; [done|]. by apply prefix_app_r.
  - unfold visited.
    by destruct (foldl_InsertQueue_frame
                   (filter (λ u, raises t u = false) urls) (txn c))
      as [-> _].
Qed.

(** *** The crawl loop *)

Lemma visited_get_next_url c :
  visited (txn (snd (_get_next_url c))) = visited (txn c).
Proof.
  unfold _get_next_url. destruct (first_by_id _); [|done]. done.
Qed.

Lemma visited_mark u ts c :
  visited (txn (run (_mark_url_visited u ts) c)) = {[u]} ∪ visited (txn c).
Proof.
  unfold visited. simpl.
  destruct (visited_urls (txn c) !! u) eqn:Hu; simpl.
  - apply (elem_of_dom_2 (D:=gset str)) in Hu. set_solver.
  - by rewrite dom_insert_L.
Qed.

Lemma is_url_visited_spec u c :
  _is_url_visited u c = true ↔ u ∈ visited (txn c).
Proof.
  unfold _is_url_visited, visited.
  by rewrite bool_decide_eq_true, elem_of_dom.
Qed.

Section CrawlerFacts.
Context (lower : str → str) (isupper : N → bool)
  (set_iter : list str → list str) (urljoin : str → str → str)
  (scheme netloc : str → str) (now : nat → str)
  (http : nat → str → option (str * list str))
  (insert_raises : nat → str → bool) (inventory : gset str).

Local Abbreviation process_word := (process_word lower isupper inventory).
Local Abbreviation process_text :=
  (process_text lower isupper set_iter inventory).
Local Abbreviation _add_urls_to_queue := (_add_urls_to_queue insert_raises).
Local Abbreviation page_script :=
  (page_script lower isupper set_iter now insert_raises inventory).
Local Abbreviation extract_links :=
  (extract_links lower urljoin scheme netloc).
Local Abbreviation keep_link := (keep_link lower urljoin scheme netloc).
Local Abbreviation crawl_page :=
  (crawl_page lower urljoin scheme netloc http).
Local Abbreviation crawl_pass :=
  (crawl_pass lower isupper set_iter urljoin scheme netloc now http
     insert_raises inventory).
Local Abbreviation crawl_pass_actions :=
  (crawl_pass_actions lower isupper set_iter urljoin scheme netloc now http
     insert_raises inventory).
Local Abbreviation crawl_pass_interrupted :=
  (crawl_pass_interrupted lower isupper set_iter urljoin scheme netloc now
     http insert_raises inventory).
Local Abbreviation crawl_loop :=
  (crawl_loop lower isupper set_iter urljoin scheme netloc now http
     insert_raises inventory).
Local Abbreviation crawl_continuous :=
  (crawl_continuous lower isupper set_iter urljoin scheme netloc now http
     insert_raises inventory).

Local Abbreviation text_statements :=
  (text_statements lower isupper set_iter inventory).

Lemma Forall_upserts (P : call → Prop) k (keys : list str) word u :
  (∀ key, P (Execute (Upsert k key word u))) →
  Forall P (keys ≫= λ key, update_ngram k key word u).
Proof.
  intros HP. apply Forall_bind, Forall_forall. intros key _.
  destruct k; by apply Forall_singleton.
Qed.

Lemma process_word_calls (P : call → Prop) word u :
  (∀ q, keeps_visited (Execute q) → P (Execute q)) →
  Forall P (process_word word u).
Proof.
  intros HP. unfold process_word.
  destruct (match word with [] => false | c :: _ => isupper c end);
    [done|].
  destruct (syllabify_word _ _ _) as [[|s sylls]|]; [done| |done].
  rewrite !Forall_app. split; [by apply Forall_singleton, HP|].
  repeat split.
  - by apply (Forall_upserts P Syllables); intros; apply HP.
  - by apply (Forall_upserts P Monographs); intros; apply HP.
  - by apply (Forall_upserts P Digraphs); intros; apply HP.
  - by apply (Forall_upserts P Trigraphs); intros; apply HP.
Qed.

Lemma process_text_batch text u :
  process_text text u = text_statements text u ++ [Commit].
Proof. reflexivity. Qed.

Lemma text_statements_calls (P : call → Prop) text u :
  (∀ q, keeps_visited (Execute q) → P (Execute q)) →
  Forall P (text_statements text u).
Proof.
  intros HP. apply Forall_bind, Forall_forall. intros word _.
  by apply process_word_calls.
Qed.

Lemma text_unit text u :
  commit_unit (if text is [] then [] else process_text text u).
Proof.
  destruct text; [by left|]. right. eexists. split; [|done].
  apply text_statements_calls. done.
Qed.

(** C2, as the code has it: one page is committed in up to three units,
    in this order: the visited mark, the text (the word additions and all
    n-gram counts of the page), the new queue entries. Against a crash,
    after which nothing commits, each unit is all-or-nothing, and a crash
    anywhere in the page leaves on disk the state of before the page or
    the state after one of the three commits. An exception raised inside
    the loop is followed by the commit of [finally]: then the calls made
    so far are on disk, whether or not they end a unit; only the visited
    mark, a single statement, is all-or-nothing against that too. *)
Theorem page_commit_units t u text links c :
  let c1 := run (_mark_url_visited u (now t)) c in
  let c2 := run (if text is [] then [] else process_text text u) c1 in
  let c3 :=
    run (if links is [] then [] else _add_urls_to_queue t links) c2 in
  all_or_nothing Crash (_mark_url_visited u (now t)) c
  ∧ all_or_nothing Crash (process_text text u) c1
  ∧ all_or_nothing Crash (_add_urls_to_queue t links) c2
  ∧ run (page_script t u text links) c = c3
  ∧ (∀ done, done `prefix_of` page_script t u text links →
       durable Crash done c ∈ [disk c; disk c1; disk c2; disk c3])
  ∧ (∀ done, done `prefix_of` page_script t u text links →
       durable Raise done c = txn (run done c))
  ∧ (disk c = txn c →
     all_or_nothing Raise (_mark_url_visited u (now t)) c).
Proof.
  intros c1 c2 c3. split; [|split; [|split; [|split; [|split; [|split]]]]].
  - apply (batch_all_or_nothing [Execute (InsertVisited u (now t))]).
    by repeat constructor.
  - apply batch_all_or_nothing, text_statements_calls. done.
  - apply batch_all_or_nothing, queue_inserts_calls. done.
  - unfold page_script. by rewrite !run_app.
  - intros done Hdone. unfold page_script in Hdone. cbn [durable].
    apply prefix_app_cases in Hdone as [Hdone|(d1 & -> & Hdone)].
    { destruct (commit_unit_disk _ c done (mark_unit u (now t)) Hdone)
        as [->| ->]; rewrite !elem_of_cons; auto. }
    rewrite run_app. fold c1.
    apply prefix_app_cases in Hdone as [Hdone|(d2 & -> & Hdone)].
    { destruct (commit_unit_disk _ c1 d1 (text_unit text u) Hdone)
        as [->| ->]; rewrite !elem_of_cons; auto. }
    rewrite run_app. fold c2.
    destruct (commit_unit_disk _ c2 d2 (links_unit insert_raises t links)
                Hdone)
      as [->| ->]; rewrite !elem_of_cons; auto.
  - intros done _. apply durable_Raise.
  - intros Hclean done Hdone. rewrite durable_Raise.
    change (_mark_url_visited u (now t))
      with ([Execute (InsertVisited u (now t))] ++ [Commit]) in Hdone.
    apply prefix_snoc_inv in Hdone as [Hdone| ->]; [|by right].
    change [Execute (InsertVisited u (now t))]
      with ([] ++ [Execute (InsertVisited u (now t))]) in Hdone.
    apply prefix_snoc_inv in Hdone as [->%prefix_nil_inv| ->].
    + left. by rewrite Hclean.
    + by right.
Qed.

(** *** Link extraction *)

Lemma foldl_keep_link base c (hrefs links : list str) :
  foldl (keep_link base c) links hrefs
  = links
    ++ filter (λ u,
         (netloc u = netloc base ∨ is_turkish_domain lower u = true)
         ∧ scheme u ∈ [py "http"; py "https"]
         ∧ _is_url_visited u c = false)
        (urljoin base <$> hrefs).
Proof.
  revert links. induction hrefs as [|href hrefs IH]; intros links.
  { by rewrite app_nil_r. }
  simpl. rewrite IH. unfold keep_link.
  rewrite filter_cons.
  destruct (decide _) as [(Hdom & Hscheme & Hnew)|Hno].
  - rewrite Hnew, (bool_decide_eq_true_2 _ Hscheme). simpl.
    destruct Hdom as [Hdom|Hdom].
    + rewrite (bool_decide_eq_true_2 _ Hdom). simpl. by rewrite <- app_assoc.
    + rewrite Hdom, orb_true_r. simpl. by rewrite <- app_assoc.
  - destruct (_ && _ && _) eqn:Hcond; [|done].
    destruct Hno. apply andb_prop in Hcond as [Hcond Hnew].
    apply andb_prop in Hcond as [Hdom Hscheme].
    apply negb_true_iff in Hnew.
    apply bool_decide_eq_true_1 in Hscheme.
    apply orb_prop in Hdom as [Hdom%bool_decide_eq_true_1|Hdom]; auto.
Qed.

(** C7: link extraction keeps only links whose scheme is http or https,
    that are not visited when the page is filtered, and that have the
    domain of the page or match the Turkish-content test; it returns at
    most 50 links, in document order: the first 50 of the links that
    qualify. *)
Theorem extract_links_filtered (hrefs : list str) (base_url : str) c :
  let links := extract_links hrefs base_url c in
  let kept u :=
    (netloc u = netloc base_url ∨ is_turkish_domain lower u = true)
    ∧ scheme u ∈ [py "http"; py "https"]
    ∧ _is_url_visited u c = false in
  Forall kept links
  ∧ length links ≤ 50
  ∧ links `sublist_of` (urljoin base_url <$> hrefs)
  ∧ links = take 50 (filter kept (urljoin base_url <$> hrefs)).
Proof.
  intros links kept. subst links. unfold extract_links.
  rewrite foldl_keep_link. simpl. fold kept.
  split; [|split; [|split]].
  - apply Forall_take, Forall_forall. by intros u [? _]%list_elem_of_filter.
  - rewrite length_take. lia.
  - etrans; [apply sublist_take|apply sublist_filter].
  - done.
Qed.

Lemma visited_page_script t u text links c :
  visited (txn (run (page_script t u text links) c))
  = {[u]} ∪ visited (txn c).
Proof.
  unfold page_script. rewrite !run_app. unfold visited at 1.
  rewrite visited_urls_run.
  2:{ destruct links; [done|]. apply Forall_app. split; [|by repeat constructor].
      by apply queue_inserts_calls. }
  rewrite visited_urls_run.
  2:{ destruct text; [done|]. apply Forall_app. split; [|by repeat constructor].
      by apply text_statements_calls. }
  apply visited_mark.
Qed.

(** A pass either fetches nothing and marks nothing, or fetches a url
    that was not visited and marks it. *)
Lemma crawl_pass_cases max_pages s s' how :
  crawl_pass max_pages s = (how, s') →
  (fetched s' = fetched s
   ∧ visited (txn (connection s')) = visited (txn (connection s)))
  ∨ ∃ u, (u ∉ visited (txn (connection s)))
      ∧ fetched s' = fetched s ++ [u]
      ∧ (visited (txn (connection s'))
         = {[u]} ∪ visited (txn (connection s))).
Proof.
  unfold crawl_pass. destruct (_ && _).
  { intros Heq. apply (f_equal snd) in Heq. cbn [snd] in Heq. subst s'.
    by left. }
  pose proof (visited_get_next_url (connection s)) as Hnext.
  destruct (_get_next_url (connection s)) as [[[|x u]|] c];
    cbn [snd] in Hnext.
  - intros Heq. apply (f_equal snd) in Heq. cbn [snd] in Heq. subst s'.
    by left.
  - destruct (_is_url_visited (x :: u) c) eqn:Hvisited.
    + intros Heq. apply (f_equal snd) in Heq. cbn [snd] in Heq. subst s'.
      by left.
    + destruct (crawl_page _ _ _) as [text links].
      intros Heq. apply (f_equal snd) in Heq. cbn [snd] in Heq. subst s'.
      right. exists (x :: u). cbn [connection fetched].
      rewrite visited_page_script, Hnext.
      split; [|done]. rewrite <- Hnext, <- is_url_visited_spec. congruence.
  - intros Heq. apply (f_equal snd) in Heq. cbn [snd] in Heq. subst s'.
    by left.
Qed.

Lemma crawl_pass_fetched_once before max_pages s s' how :
  fetched_once before s → crawl_pass max_pages s = (how, s') →
  fetched_once before s'.
Proof.
  intros (Hnd & Hnew & Hvis) [[Hf Hv]|(u & Hu & Hf & Hv)]%crawl_pass_cases.
  - unfold fetched_once. by rewrite Hf, Hv.
  - unfold fetched_once. rewrite Hf, Hv, Hvis. rewrite Hvis in Hu.
    split; [|split].
    + apply NoDup_app. split; [done|]. split; [|apply NoDup_singleton].
      intros x Hx ->%list_elem_of_singleton. set_solver.
    + apply Forall_app. split; [done|]. apply Forall_singleton. set_solver.
    + rewrite list_to_set_app_L. set_solver.
Qed.

(** *** A pass step by step *)

Lemma foldl_act_calls s script :
  foldl act s (Call <$> script)
  = Session (run script (connection s)) (pages_this_session s) (fetched s).
Proof.
  revert s. induction script as [|a script IH]; intros s; [by destruct s|].
  rewrite fmap_cons. cbn [foldl]. by rewrite IH.
Qed.

Lemma get_next_url_calls c :
  snd (_get_next_url c) = run (_get_next_url_calls c) c.
Proof.
  unfold _get_next_url, _get_next_url_calls. by destruct (first_by_id _).
Qed.

Lemma get_next_url_calls_keep c :
  Forall keeps_visited (_get_next_url_calls c).
Proof.
  unfold _get_next_url_calls. destruct (first_by_id _); by repeat constructor.
Qed.

(** The steps of a pass, all done, are the pass. *)
Lemma crawl_pass_actions_whole max_pages s :
  foldl act s (crawl_pass_actions max_pages s) = snd (crawl_pass max_pages s).
Proof.
  unfold crawl_pass_actions, crawl_pass. destruct (_ && _); [done|].
  pose proof (get_next_url_calls (connection s)) as Hcalls.
  destruct (_get_next_url (connection s)) as [[[|x u]|] c];
    cbn [snd] in Hcalls; subst c.
  - by rewrite foldl_act_calls.
  - destruct (_is_url_visited _ _); [by rewrite foldl_act_calls|].
    destruct (crawl_page _ _ _) as [text links].
    rewrite !foldl_app, foldl_act_calls. cbn [foldl act snd].
    by rewrite foldl_act_calls.
  - by rewrite foldl_act_calls.
Qed.

(** After its first statement a page has marked its url. *)
Lemma visited_take_page_script n t u text links c :
  0 < n →
  visited (txn (run (take n (page_script t u text links)) c))
  = {[u]} ∪ visited (txn c).
Proof.
  intros Hn. destruct n as [|n]; [lia|].
  unfold page_script, _mark_url_visited. cbn [app take].
  rewrite run_cons. unfold visited at 1. rewrite visited_urls_run.
  - unfold visited. cbn [step txn execute].
    destruct (visited_urls (txn c) !! u) eqn:Hu; cbn [visited_urls].
    + apply (elem_of_dom_2 (D:=gset str)) in Hu.
      clear -Hu. set_solver.
    + by rewrite dom_insert_L.
  - apply Forall_take. apply Forall_cons. split; [done|].
    apply Forall_app. split.
    + destruct text; [done|]. apply Forall_app.
      split; [|by repeat constructor]. by apply text_statements_calls.
    + destruct links; [done|]. apply Forall_app.
      split; [|by repeat constructor]. by apply queue_inserts_calls.
Qed.

(** A pass left after some of its steps has only made calls that keep the
    visited urls, or it has requested a url that was not visited and then
    made calls that mark at most that url. *)
Lemma crawl_pass_interrupted_cases interrupt max_pages s :
  (∃ script,
     Forall keeps_visited script
     ∧ crawl_pass_interrupted interrupt max_pages s
       = Session (run script (connection s)) (pages_this_session s)
           (fetched s))
  ∨ (∃ u script,
       0 < interrupt
       ∧ ¬ ((0 < max_pages)%Z
            ∧ (max_pages ≤ Z.of_nat (pages_this_session s))%Z)
       ∧ (u ∉ visited (txn (connection s)))
       ∧ crawl_pass_interrupted interrupt max_pages s
         = Session (run script (connection s)) (pages_this_session s + 1)
             (fetched s ++ [u])
       ∧ (visited (txn (run script (connection s)))
          = visited (txn (connection s))
          ∨ visited (txn (run script (connection s)))
            = {[u]} ∪ visited (txn (connection s)))).
Proof.
  unfold crawl_pass_interrupted, crawl_pass_actions.
  destruct (bool_decide (0 < max_pages)%Z
            && bool_decide (max_pages ≤ Z.of_nat (pages_this_session s))%Z)
    eqn:Hstop.
  { left. exists []. split; [done|]. rewrite take_nil. by destruct s. }
  assert (Hroom : ¬ ((0 < max_pages)%Z
                     ∧ (max_pages ≤ Z.of_nat (pages_this_session s))%Z)).
  { intros [H1 H2]. apply andb_false_iff in Hstop as [Hstop|Hstop];
      by apply bool_decide_eq_false in Hstop. }
  pose proof (get_next_url_calls (connection s)) as Hcalls.
  pose proof (get_next_url_calls_keep (connection s)) as Hkeep.
  pose proof (visited_get_next_url (connection s)) as Hnext.
  set (calls := _get_next_url_calls (connection s)) in *.
  assert (Hdequeue :
    ∃ script, Forall keeps_visited script
      ∧ foldl act s (take interrupt (Call <$> calls))
        = Session (run script (connection s)) (pages_this_session s)
            (fetched s)).
  { exists (take interrupt calls). split; [by apply Forall_take|].
    by rewrite <- fmap_take, foldl_act_calls. }
  destruct (_get_next_url (connection s)) as [[[|x u]|] c];
    cbn [snd] in Hcalls, Hnext; [by left| |by left].
  destruct (_is_url_visited (x :: u) c) eqn:Hvisited; [by left|].
  destruct (crawl_page _ _ _) as [text links].
  rewrite take_app, length_fmap.
  destruct (interrupt - length calls) as [|rest] eqn:Hrest.
  { left. rewrite take_0, app_nil_r. exact Hdequeue. }
  right.
  exists (x :: u),
    (calls ++ take rest (page_script (pages_this_session s + 1) (x :: u)
                           text links)).
  split; [lia|]. split; [exact Hroom|]. split.
  { rewrite <- Hnext, <- is_url_visited_spec. congruence. }
  split.
  - rewrite take_ge by (rewrite length_fmap; lia).
    cbn [app take]. rewrite foldl_app, foldl_act_calls. cbn [foldl act].
    rewrite <- fmap_take, foldl_act_calls. cbn [connection
      pages_this_session fetched]. by rewrite run_app.
  - rewrite run_app, <- Hcalls.
    destruct rest as [|rest].
    + left. rewrite take_0. exact Hnext.
    + right. rewrite visited_take_page_script by lia. by rewrite Hnext.
Qed.

Lemma crawl_pass_interrupted_0 max_pages s :
  crawl_pass_interrupted 0 max_pages s = s.
Proof. unfold crawl_pass_interrupted. by rewrite take_0. Qed.

Lemma fetched_once_interrupted_weaken before s :
  fetched_once before s → fetched_once_interrupted before s.
Proof. intros (Hnd & Hnew & Hvis). split; [done|]. split; [done|]. by left. Qed.

Lemma crawl_pass_interrupted_fetched_once before interrupt max_pages s :
  fetched_once before s →
  fetched_once_interrupted before
    (crawl_pass_interrupted interrupt max_pages s).
Proof.
  intros (Hnd & Hnew & Hvis).
  destruct (crawl_pass_interrupted_cases interrupt max_pages s)
    as [(script & Hkeep & ->)|(u & script & _ & _ & Hu & -> & Hmark)].
  - unfold fetched_once_interrupted. cbn [connection fetched].
    split; [done|]. split; [done|]. left.
    unfold visited. rewrite visited_urls_run by done. exact Hvis.
  - rewrite Hvis in Hu. unfold fetched_once_interrupted.
    cbn [connection fetched]. split; [|split].
    + apply NoDup_app. split; [done|]. split; [|apply NoDup_singleton].
      intros x Hx ->%list_elem_of_singleton. clear -Hu Hx. set_solver.
    + apply Forall_app. split; [done|]. apply Forall_singleton.
      clear -Hu. set_solver.
    + destruct Hmark as [->| ->].
      * right. exists (fetched s), u. by split.
      * left. rewrite Hvis, list_to_set_app_L. clear. set_solver.
Qed.

Lemma crawl_loop_fetched_once before passes interrupt max_pages s :
  fetched_once before s →
  fetched_once_interrupted before (crawl_loop passes interrupt max_pages s)
  ∧ (interrupt = 0 →
     fetched_once before (crawl_loop passes interrupt max_pages s)).
Proof.
  revert s. induction passes as [|passes IH]; intros s Hs.
  { cbn [crawl_loop]. split.
    - by apply crawl_pass_interrupted_fetched_once.
    - intros ->. by rewrite crawl_pass_interrupted_0. }
  cbn [crawl_loop].
  destruct (crawl_pass max_pages s) as [[] s'] eqn:Hpass.
  - by eapply IH, crawl_pass_fetched_once.
  - pose proof (crawl_pass_fetched_once _ _ _ _ _ Hs Hpass) as Hs'.
    split; [by apply fetched_once_interrupted_weaken|done].
Qed.

(** C8: in every session, whether the loop ends by [break] or is left
    between two passes or inside a pass by an exception, no url is fetched
    twice and no fetched url was visited before the session. The visited
    urls are those of before plus the fetched ones when the loop is not
    left inside a pass; when it is, the last url requested may be
    unmarked. A pass that takes a visited url from the queue fetches
    nothing and counts no page: when the loop goes on, only the queue has
    changed. *)
Theorem fetch_at_most_once passes interrupt (seed_urls : list str)
    max_pages c :
  let s := crawl_continuous passes interrupt seed_urls max_pages c in
  NoDup (fetched s)
  ∧ Forall (λ u, u ∉ visited (txn c)) (fetched s)
  ∧ (interrupt = 0 →
     visited (txn (connection s))
     = visited (txn c) ∪ list_to_set (fetched s))
  ∧ (visited (txn (connection s))
     = visited (txn c) ∪ list_to_set (fetched s)
     ∨ ∃ marked u,
         fetched s = marked ++ [u]
         ∧ visited (txn (connection s))
           = visited (txn c) ∪ list_to_set marked)
  ∧ ∀ s1 s2 how u c1,
      _get_next_url (connection s1) = (Some u, c1) →
      u ∈ visited (txn c1) →
      crawl_pass max_pages s1 = (how, s2) →
      fetched s2 = fetched s1
      ∧ pages_this_session s2 = pages_this_session s1
      ∧ (how = Continue →
         s2 = Session c1 (pages_this_session s1) (fetched s1)).
Proof.
  intros s.
  destruct (crawl_loop_fetched_once (visited (txn c)) passes interrupt
              max_pages
              (Session (run (_add_urls_to_queue 0 seed_urls) c) 0 []))
    as [(Hnd & Hnew & Hvis) Hwhole].
  { split; [apply NoDup_nil_2|]. split; [done|]. cbn [connection fetched].
    rewrite visited_add_urls. clear. set_solver. }
  split; [done|]. split; [done|]. split; [|split; [exact Hvis|]].
  { intros Hint. by destruct (Hwhole Hint) as (_ & _ & ?). }
  intros s1 s2 how u c1 Hnext Hu%is_url_visited_spec.
  unfold crawl_pass. rewrite Hnext, Hu.
  destruct (_ && _); [by intros [= <- <-]|].
  destruct u; by intros [= <- <-].
Qed.

End CrawlerFacts.

(** C2 does not hold of the code as one unit per page, not even against
    a crash: after the visited mark of a page with the text "araba eve" is
    committed, the disk holds neither the state of before the page nor the
    state after the whole page. *)
Lemma page_not_all_or_nothing :
  ¬ all_or_nothing Crash
      (page_script str_lower isupper_cp (λ l, l) sample_now never_raises
         sample_inventory 1 sample_url (py "araba eve") [py "http://a.tr/b"])
      (Conn empty_db empty_db).
Proof.
  intros H.
  destruct (H (_mark_url_visited sample_url (sample_now 1))) as [Hd|Hd].
  - by eexists.
  - apply (f_equal (λ d, visited_urls d !! sample_url)) in Hd.
    vm_compute in Hd. discriminate.
  - apply (f_equal (λ d, bool_decide (py "araba" ∈ words d))) in Hd.
    vm_compute in Hd. discriminate.
Qed.

(** An exception inside [process_text] makes half a text durable: when the
    loop is left after the first two statements of the text "araba eve",
    the commit of [finally] leaves on disk the word "araba" with one of its
    syllables counted, no letter counted and no word "eve": the text unit
    is not all-or-nothing against an exception. *)
Example raise_commits_half_text :
  let text :=
    process_text str_lower isupper_cp (λ l, l) sample_inventory
      (py "araba eve") sample_url in
  let c := run (_mark_url_visited sample_url (sample_now 1))
             (Conn empty_db empty_db) in
  let d := durable Raise (take 2 text) c in
  words d = {[py "araba"]}
  ∧ frequency <$> syllables d !! py "a" = Some 1%Z
  ∧ syllables d !! py "ra" = None
  ∧ monographs d = ∅
  ∧ words (disk (run text c)) = {[py "araba"; py "eve"]}
  ∧ ¬ all_or_nothing Raise text c.
Proof.
  intros text c d.
  assert (Hwords : words d = {[py "araba"]}) by (vm_compute; reflexivity).
  split; [exact Hwords|]. split; [vm_compute; reflexivity|].
  split; [vm_compute; reflexivity|]. split; [vm_compute; reflexivity|].
  split; [vm_compute; reflexivity|].
  intros H. destruct (H (take 2 text)) as [Hd|Hd].
  - apply prefix_take.
  - apply (f_equal (λ d, bool_decide (py "araba" ∈ words d))) in Hd.
    vm_compute in Hd. discriminate.
  - apply (f_equal (λ d, bool_decide (py "eve" ∈ words d))) in Hd.
    vm_compute in Hd. discriminate.
Qed.

(** C3 does not hold of the code for visited urls: a visited url that is
    not queued is enqueued, and the queue and the visited urls, disjoint
    before, are not after. *)
Lemma enqueue_visited_url :
  ¬ enqueue_skips_known never_raises 0 [sample_url]
      (Conn crawled_db crawled_db)
  ∧ frontier_visited_disjoint crawled_db
  ∧ ¬ frontier_visited_disjoint
        (txn (run (_add_urls_to_queue never_raises 0 [sample_url])
                (Conn crawled_db crawled_db))).
Proof.
  split; [|split].
  - intros H. unfold enqueue_skips_known in H.
    assert (Heq : url_queue
                    (txn (run (_add_urls_to_queue never_raises 0
                                 [sample_url])
                            (Conn crawled_db crawled_db))) = []).
    { apply H. apply Forall_singleton. right. compute_done. }
    vm_compute in Heq. discriminate.
  - intros u Hu. by apply elem_of_nil in Hu.
  - intros H. apply (H sample_url); compute_done.
Qed.

(** An ignored insert uses up an id: after a url is enqueued three more
    times the queue has its one row, and the next url gets the id 5. *)
Example enqueue_advances_sequence :
  let c := run (_add_urls_to_queue never_raises 0
                  [sample_url; sample_url; sample_url; sample_url])
             (Conn empty_db empty_db) in
  url_queue (txn c) = [QueueRow 1 sample_url]
  ∧ url_queue_seq (txn c) = 4%Z
  ∧ url_queue (txn (run (_add_urls_to_queue never_raises 0
                           [py "http://a.tr/b"]) c))
    = [QueueRow 1 sample_url; QueueRow 5 (py "http://a.tr/b")].
Proof. vm_compute. done. Qed.

(** A url with a lone surrogate is skipped without a trace; the urls after
    it are enqueued. *)
Example enqueue_skips_raising_url :
  url_queue
    (txn (run (_add_urls_to_queue encode_raises 0
                 [py "http://a.tr/" ++ [56575%N]; sample_url])
            (Conn empty_db empty_db)))
  = [QueueRow 1 sample_url].
Proof. vm_compute. done. Qed.

(** An exception in the request: the loop is left in its first pass after
    the url is taken from the queue and requested. The url is counted and
    is neither queued nor visited when the session has ended. *)
Example interrupted_request_unmarked :
  let s :=
    crawl_continuous str_lower isupper_cp (λ l, l) (λ base href, href)
      (λ u, py "http") (λ u, py "a.tr") sample_now self_link_site
      never_raises sample_inventory 0 3 [sample_url] 0
      (Conn empty_db empty_db) in
  fetched s = [sample_url]
  ∧ pages_this_session s = 1
  ∧ url_queue (disk (connection s)) = []
  ∧ visited_urls (disk (connection s)) = ∅.
Proof. vm_compute. done. Qed.

(** An exception in [process_text]: the loop is left in its first pass
    after the dequeue, the request, the visited mark and two statements of
    the text. The commit of [finally] makes the word "araba" durable
    without the word "eve" of the same page, and the page is marked
    visited. *)
Example interrupted_text_half_committed :
  let s :=
    crawl_continuous str_lower isupper_cp (λ l, l) (λ base href, href)
      (λ u, py "http") (λ u, py "a.tr") sample_now text_site
      never_raises sample_inventory 0 7 [sample_url] 0
      (Conn empty_db empty_db) in
  words (disk (connection s)) = {[py "araba"]}
  ∧ monographs (disk (connection s)) = ∅
  ∧ visited_urls (disk (connection s)) = {[sample_url := sample_now 1]}
  ∧ words
      (disk (connection
               (crawl_continuous str_lower isupper_cp (λ l, l)
                  (λ base href, href) (λ u, py "http") (λ u, py "a.tr")
                  sample_now text_site never_raises sample_inventory 1 0
                  [sample_url] 0 (Conn empty_db empty_db))))
    = {[py "araba"; py "eve"]}.
Proof. vm_compute. done. Qed.

Example self_link_is_fetched_once :
  fetched (self_link_session 1) = [sample_url]
  ∧ frontier (txn (connection (self_link_session 1))) = [sample_url]
  ∧ sample_url ∈ visited (txn (connection (self_link_session 1)))
  ∧ fetched (self_link_session 5) = [sample_url]
  ∧ frontier (txn (connection (self_link_session 5))) = [].
Proof.
  split; [compute_done|]. split; [compute_done|]. split; [compute_done|].
  split; compute_done.
Qed.

(** ** Segmentation: what [syllabify_word] returns *)

(** C5: on a lowercase token, [syllabify_word] returns either the failure
    signal or syllables of the inventory whose concatenation, in order, is
    the token; it never returns a partial result. *)
Theorem syllabify_word_concat (lower : str → str) (token : str)
    (inv : gset str) :
  lower token = token →
  syllabify_word lower token inv = None
  ∨ ∃ sylls, syllabify_word lower token inv = Some sylls
      ∧ concat sylls = token ∧ Forall (λ s, s ∈ inv) sylls.
Proof.
  intros Hlow. destruct (syllabify_word lower token inv) as [sylls|] eqn:H;
    [right|by left].
  apply syllabify_word_sound in H as [Hcat Hall]. rewrite Hlow in Hcat.
  by exists sylls.
Qed.

Lemma syllabify_word_concat_witness :
  syllabify_word str_lower (py "araba") sample_inventory = None
  ∨ ∃ sylls, syllabify_word str_lower (py "araba") sample_inventory
             = Some sylls
      ∧ concat sylls = py "araba"
      ∧ Forall (λ s, s ∈ sample_inventory) sylls.
Proof.
  apply (syllabify_word_concat str_lower (py "araba") sample_inventory).
  vm_compute. reflexivity.
Defined.

(** C1, as the code has it: the table has no false negatives. For every
    inventory and every lowercase token that is a concatenation of
    inventory syllables of at most four letters each, [syllabify_word]
    returns a decomposition of the token; the first-fit choice only selects
    which one. *)
Theorem syllabify_word_no_false_negative (lower : str → str) (token : str)
    (inv : gset str) (sylls : list str) :
  lower token = token →
  Forall (λ s, s ∈ inv ∧ length s ≤ 4) sylls →
  concat sylls = token →
  ∃ found, syllabify_word lower token inv = Some found
    ∧ concat found = token ∧ Forall (λ s, s ∈ inv) found.
Proof.
  intros Hlow Hsylls Hcat.
  destruct (syllabify_word_complete lower token inv sylls) as [found H];
    [done|congruence|].
  exists found. split; [done|].
  apply syllabify_word_sound in H as [Hfound ?]. by rewrite Hlow in Hfound.
Qed.

Lemma syllabify_word_no_false_negative_witness :
  ∃ found,
    syllabify_word str_lower (py "balk")
      (list_to_set [py "a"; py "bal"; py "balk"; py "k"]) = Some found
    ∧ concat found = py "balk"
    ∧ Forall (λ s, s ∈ (list_to_set [py "a"; py "bal"; py "balk"; py "k"]
                         : gset str)) found.
Proof.
  apply (syllabify_word_no_false_negative str_lower (py "balk")
           (list_to_set [py "a"; py "bal"; py "balk"; py "k"])
           [py "bal"; py "k"]).
  - vm_compute. reflexivity.
  - repeat constructor; compute_done.
  - vm_compute. reflexivity.
Defined.

(** C1 does not hold of the code with false negatives: no token that is a
    concatenation of syllables of the generated inventory is rejected. *)
Lemma no_false_negative_on_inventory :
  ¬ ∃ (token : str) (sylls : list str),
      Forall (λ s, s ∈ all_syllables_set ∧ length s ≤ 4) sylls
      ∧ concat sylls = token
      ∧ syllabify_word str_lower token all_syllables_set = None.
Proof.
  intros (token & sylls & Hsylls & Hcat & Hnone).
  assert (Hlow : str_lower token = token).
  { rewrite <- Hcat. apply str_lower_concat.
    eapply Forall_impl; [exact Hsylls|]. intros s [Hs _].
    by apply inventory_lowercase, elem_of_all_syllables_set. }
  destruct (syllabify_word_complete str_lower token all_syllables_set sylls)
    as [found H].
  - exact Hsylls.
  - rewrite Hlow. exact Hcat.
  - rewrite H in Hnone. discriminate Hnone.
Qed.

(** C9: [syllabify_word] lowercases its input itself, so a word and its
    lowercase form get the same result. *)
Theorem syllabify_word_lower (lower : str → str) :
  (∀ w, lower (lower w) = lower w) →
  ∀ (w : str) (inv : gset str),
    syllabify_word lower w inv = syllabify_word lower (lower w) inv.
Proof.
  intros Hidem w inv. unfold syllabify_word. by rewrite Hidem.
Qed.

Lemma syllabify_word_lower_witness :
  syllabify_word str_lower (py "ARABA") sample_inventory
  = syllabify_word str_lower (str_lower (py "ARABA")) sample_inventory.
Proof.
  apply (syllabify_word_lower str_lower str_lower_idemp).
Defined.

(** C10: on the empty string [syllabify_word] returns the empty list of
    syllables, the entry of position 0, not the failure signal. *)
Theorem syllabify_word_empty (lower : str → str) (inv : gset str) :
  lower [] = [] → syllabify_word lower [] inv = Some [].
Proof. intros Hnil. unfold syllabify_word. by rewrite Hnil. Qed.

Lemma syllabify_word_empty_witness :
  syllabify_word str_lower [] all_syllables_set = Some [].
Proof.
  apply (syllabify_word_empty str_lower all_syllables_set). reflexivity.
Defined.

(** ** The size of the inventory *)

(** C6: the generated inventory has exactly 77,960 members, all distinct,
    8 + 168 + 168 + 3528 + 74088 over the patterns V, VC, CV, CVC, CVCC, and
    the members of each pattern have the length of the pattern. *)
Theorem inventory_size :
  Z.of_nat (length generate_all_syllables) = 77960%Z
  ∧ NoDup generate_all_syllables
  ∧ Z.of_nat (size all_syllables_set) = 77960%Z
  ∧ generate_all_syllables
    = v_syllables ++ vc_syllables ++ cv_syllables ++ cvc_syllables
      ++ cvcc_syllables
  ∧ Forall (λ s, length s = 1) v_syllables
  ∧ Forall (λ s, length s = 2) vc_syllables
  ∧ Forall (λ s, length s = 2) cv_syllables
  ∧ Forall (λ s, length s = 3) cvc_syllables
  ∧ Forall (λ s, length s = 4) cvcc_syllables.
Proof.
  assert (Hlen : Z.of_nat (length generate_all_syllables) = 77960%Z).
  { rewrite generate_all_syllables_groups, !length_app.
    destruct pattern_sizes as (? & ? & ? & ? & ?). lia. }
  split; [done|]. split; [apply NoDup_generate_all_syllables|].
  split.
  { unfold all_syllables_set.
    rewrite size_list_to_set by apply NoDup_generate_all_syllables.
    exact Hlen. }
  split; [apply generate_all_syllables_groups|].
  rewrite v_syllables_pattern.
  unfold vc_syllables, cv_syllables, cvc_syllables, cvcc_syllables.
  repeat split; apply Forall_forall; intros s Hs;
    (eapply length_pattern in Hs; [exact Hs|]);
    unfold patterns; rewrite !elem_of_cons; auto 10.
Qed.

(** ** The counters *)

(** C4: in each of the four n-gram tables, counting a key that is absent
    inserts it with frequency 1, counting a key that is present adds 1 to
    its frequency, and both set [last_word] and [last_url] to the arguments
    of the call; two calls on an absent key leave frequency 2 and the
    arguments of the second call. The other keys and tables are untouched. *)
Theorem upsert_increment (k : ngram_table) (key word u : str) (c : conn) :
  let c' := run (update_ngram k key word u) c in
  (rows k (txn c) !! key = None →
   rows k (txn c') !! key = Some (NgramRow 1 word u))
  ∧ (∀ r, rows k (txn c) !! key = Some r →
       rows k (txn c') !! key = Some (NgramRow (frequency r + 1) word u))
  ∧ (∀ word2 u2, rows k (txn c) !! key = None →
       rows k (txn (run (update_ngram k key word2 u2) c')) !! key
       = Some (NgramRow 2 word2 u2))
  ∧ (∀ key', key ≠ key' → rows k (txn c') !! key' = rows k (txn c) !! key')
  ∧ (∀ k', k ≠ k' → rows k' (txn c') = rows k' (txn c))
  ∧ disk c' = disk c.
Proof.
  intros c'. subst c'. rewrite run_update_ngram. cbn [txn disk execute].
  rewrite rows_set_rows.
  split; [|split; [|split; [|split; [|split]]]].
  - intros Hnone. by rewrite upsert_lookup, Hnone.
  - intros r Hr. by rewrite upsert_lookup, Hr.
  - intros word2 u2 Hnone. rewrite run_update_ngram. cbn [txn execute].
    by rewrite !rows_set_rows, !upsert_lookup, Hnone.
  - intros key' Hne. by apply upsert_lookup_ne.
  - intros k' Hne. by apply rows_set_rows_ne.
  - done.
Qed.

Lemma upsert_increment_witness :
  rows Syllables
    (txn (run (_update_syllable (py "ra") (py "araba") sample_url)
            (Conn empty_db empty_db))) !! py "ra"
  = Some (NgramRow 1 (py "araba") sample_url)
  ∧ rows Syllables
      (txn (run (_update_syllable (py "ra") (py "kira") (py "http://b.tr/"))
              (run (_update_syllable (py "ra") (py "araba") sample_url)
                 (Conn empty_db empty_db)))) !! py "ra"
    = Some (NgramRow 2 (py "kira") (py "http://b.tr/")).
Proof.
  destruct (upsert_increment Syllables (py "ra") (py "araba") sample_url
              (Conn empty_db empty_db)) as (Hfirst & _ & Htwice & _).
  split.
  - apply Hfirst. reflexivity.
  - apply Htwice. reflexivity.
Defined.

(** ** The crawler theorems on the sample data *)

Lemma page_commit_units_witness :
  all_or_nothing Crash (_mark_url_visited sample_url (sample_now 1))
    (Conn empty_db empty_db)
  ∧ all_or_nothing Crash
      (process_text str_lower isupper_cp (λ l, l) sample_inventory
         (py "araba eve") sample_url)
      (run (_mark_url_visited sample_url (sample_now 1))
         (Conn empty_db empty_db))
  ∧ all_or_nothing Raise (_mark_url_visited sample_url (sample_now 1))
      (Conn empty_db empty_db).
Proof.
  destruct (page_commit_units str_lower isupper_cp (λ l, l) sample_now
              never_raises sample_inventory 1 sample_url (py "araba eve")
              [py "http://a.tr/b"] (Conn empty_db empty_db))
    as (Hmark & Htext & _ & _ & _ & _ & Hraise).
  split; [exact Hmark|]. split; [exact Htext|]. apply Hraise. reflexivity.
Defined.

Lemma enqueue_skips_queued_witness :
  txn (run (_add_urls_to_queue never_raises 0 [sample_url])
         (run (_add_urls_to_queue never_raises 0 [sample_url])
            (Conn empty_db empty_db)))
  = with_seq
      (url_queue_seq
         (txn (run (_add_urls_to_queue never_raises 0 [sample_url])
                 (Conn empty_db empty_db)))
       + Z.of_nat
           (length (filter (λ u, never_raises 0 u = false) [sample_url])))
      (txn (run (_add_urls_to_queue never_raises 0 [sample_url])
              (Conn empty_db empty_db)))
  ∧ frontier (txn (run (_add_urls_to_queue never_raises 0 [sample_url])
                     (Conn crawled_db crawled_db)))
    = frontier (txn (Conn crawled_db crawled_db)) ++ [sample_url]
  ∧ txn (run (_add_urls_to_queue encode_raises 0
                [py "http://a.tr/" ++ [56575%N]])
           (Conn crawled_db crawled_db))
    = txn (Conn crawled_db crawled_db).
Proof.
  split; [|split].
  - destruct (enqueue_skips_queued never_raises 0 [sample_url]
                (run (_add_urls_to_queue never_raises 0 [sample_url])
                   (Conn empty_db empty_db))) as (Hnoop & _).
    apply Hnoop. apply Forall_singleton. compute_done.
  - destruct (enqueue_skips_queued never_raises 0 []
                (Conn crawled_db crawled_db)) as (_ & Hnew & _).
    apply Hnew; [compute_done|reflexivity].
  - destruct (enqueue_skips_queued encode_raises 0 []
                (Conn crawled_db crawled_db)) as (_ & _ & Hraises & _).
    apply Hraises. vm_compute. reflexivity.
Defined.

Lemma fetch_at_most_once_witness :
  NoDup (fetched (self_link_session 5))
  ∧ visited (txn (connection (self_link_session 5)))
    = visited (txn (Conn empty_db empty_db))
      ∪ list_to_set (fetched (self_link_session 5))
  ∧ snd (crawl_pass str_lower isupper_cp (λ l, l) (λ base href, href)
           (λ u, py "http") (λ u, py "a.tr") sample_now self_link_site
           never_raises sample_inventory 0 (self_link_session 1))
    = Session
        (run [Execute (DeleteQueue 2); Commit]
           (connection (self_link_session 1)))
        1 [sample_url].
Proof.
  destruct (fetch_at_most_once str_lower isupper_cp (λ l, l)
              (λ base href, href) (λ u, py "http") (λ u, py "a.tr")
              sample_now self_link_site never_raises sample_inventory 5 0
              [sample_url] 0 (Conn empty_db empty_db))
    as (Hnodup & _ & Hwhole & _ & Hskip).
  split; [exact Hnodup|]. split; [exact (Hwhole eq_refl)|].
  destruct (crawl_pass str_lower isupper_cp (λ l, l) (λ base href, href)
              (λ u, py "http") (λ u, py "a.tr") sample_now self_link_site
              never_raises sample_inventory 0 (self_link_session 1))
    as [how s2] eqn:Hpass.
  destruct (Hskip (self_link_session 1) s2 how sample_url
              (run [Execute (DeleteQueue 2); Commit]
                 (connection (self_link_session 1)))) as (_ & _ & Hgo).
  - vm_compute. reflexivity.
  - compute_done.
  - exact Hpass.
  - apply Hgo. apply (f_equal fst) in Hpass. vm_compute in Hpass.
    symmetry. exact Hpass.
Defined.

Example py_literals :
  py "aıöüçğş" = [97; 305; 246; 252; 231; 287; 351]%N ∧
  py "İ" = [304%N] ∧ str_lower (py "İstanbul IĞDIR") = py "i̇stanbul iğdir".
Proof. vm_compute. done. Qed.

Example balk_is_one_syllable :
  syllabify_word str_lower (py "balk")
    (list_to_set [py "a"; py "ba"; py "bal"; py "balk"; py "k"; py "lk"])
  = Some [py "balk"].
Proof. vm_compute. done. Qed.

Example araba :
  syllabify_word str_lower (py "Araba")
    (list_to_set [py "a"; py "ra"; py "ba"; py "ar"; py "ab"])
  = Some [py "a"; py "ra"; py "ba"].
Proof. vm_compute. done. Qed.

(** * Further properties *)

(** ** More on the inventory *)

Lemma elem_of_VOWELS x : x ∈ VOWELS ↔ ∃ c, x = [c] ∧ vowel c = true.
Proof.
  split.
  - intros Hx. pose proof (proj1 (Forall_forall _ _) VOWELS_single _ Hx) as Hl.
    destruct x as [|c [|??]]; try done. exists c. split; [done|].
    by apply bool_decide_eq_true_2.
  - intros (c & -> & Hc). by apply bool_decide_eq_true_1 in Hc.
Qed.

Lemma elem_of_CONSONANTS x :
  x ∈ CONSONANTS ↔ ∃ c, x = [c] ∧ consonant c = true.
Proof.
  split.
  - intros Hx.
    pose proof (proj1 (Forall_forall _ _) CONSONANTS_single _ Hx) as Hl.
    destruct x as [|c [|??]]; try done. exists c. split; [done|].
    by apply bool_decide_eq_true_2.
  - intros (c & -> & Hc). by apply bool_decide_eq_true_1 in Hc.
Qed.

Lemma vowel_not_consonant c : vowel c = true → consonant c = false.
Proof.
  intros Hc%bool_decide_eq_true_1. apply bool_decide_eq_false_2.
  by apply VOWELS_not_CONSONANTS.
Qed.

Lemma consonant_not_vowel c : consonant c = true → vowel c = false.
Proof.
  intros Hc. destruct (vowel c) eqn:Hv; [|done].
  apply vowel_not_consonant in Hv. congruence.
Qed.

Ltac pools_letters :=
  repeat match goal with
    | H : Forall2 _ _ (_ :: _) |- _ =>
        apply Forall2_cons_inv_r in H as (? & ? & ? & ? & ->)
    | H : Forall2 _ _ [] |- _ => apply Forall2_nil_inv_r in H as ->
    | H : _ ∈ VOWELS |- _ => apply elem_of_VOWELS in H as (? & -> & ?)
    | H : _ ∈ CONSONANTS |- _ => apply elem_of_CONSONANTS in H as (? & -> & ?)
    end.

Ltac letters_in_pools :=
  repeat (constructor;
          [first [by apply elem_of_VOWELS; eauto
                 |by apply elem_of_CONSONANTS; eauto]|]);
  constructor.

Lemma generated_has_shape (s : str) :
  s ∈ generate_all_syllables → syllable_shape s = true.
Proof.
  rewrite elem_of_generate_all_syllables.
  intros (pools & Hpools & (t & -> & Ht)%elem_of_pattern).
  unfold patterns in Hpools. rewrite !elem_of_cons in Hpools.
  destruct Hpools as [->|[->|[->|[->|[->|[]%elem_of_nil]]]]];
    pools_letters; cbn [str_join concat app syllable_shape];
    repeat match goal with H : _ = true |- _ => rewrite H; clear H end;
    cbn [andb orb]; by rewrite ?orb_true_r.
Qed.

Lemma shape_is_generated (s : str) :
  syllable_shape s = true → s ∈ generate_all_syllables.
Proof.
  rewrite elem_of_generate_all_syllables.
  intros Hshape.
  destruct s as [|a [|b [|c [|d [|??]]]]]; cbn [syllable_shape] in Hshape;
    try done.
  - exists [VOWELS]. split; [unfold patterns; rewrite !elem_of_cons; auto|].
    apply elem_of_pattern. exists [[a]]. split; [done|].
    letters_in_pools.
  - apply orb_prop in Hshape as [[Ha Hb]%andb_prop|[Ha Hb]%andb_prop].
    + exists [VOWELS; CONSONANTS].
      split; [unfold patterns; rewrite !elem_of_cons; auto|].
      apply elem_of_pattern. exists [[a]; [b]]. split; [done|].
      letters_in_pools.
    + exists [CONSONANTS; VOWELS].
      split; [unfold patterns; rewrite !elem_of_cons; auto|].
      apply elem_of_pattern. exists [[a]; [b]]. split; [done|].
      letters_in_pools.
  - apply andb_prop in Hshape as [[Ha Hb]%andb_prop Hc].
    exists [CONSONANTS; VOWELS; CONSONANTS].
    split; [unfold patterns; rewrite !elem_of_cons; auto 10|].
    apply elem_of_pattern. exists [[a]; [b]; [c]]. split; [done|].
    letters_in_pools.
  - apply andb_prop in Hshape as [[[Ha Hb]%andb_prop Hc]%andb_prop Hd].
    exists [CONSONANTS; VOWELS; CONSONANTS; CONSONANTS].
    split; [unfold patterns; rewrite !elem_of_cons; auto 10|].
    apply elem_of_pattern. exists [[a]; [b]; [c]; [d]]. split; [done|].
    letters_in_pools.
Qed.

(** X1: a string is in the inventory exactly when it has one of the five
    shapes. *)
Theorem inventory_shape (s : str) :
  s ∈ all_syllables_set ↔ syllable_shape s = true.
Proof.
  rewrite elem_of_all_syllables_set. split.
  - exact (generated_has_shape s).
  - exact (shape_is_generated s).
Qed.

Lemma vowel_count_cons c w :
  vowel_count (c :: w) = (if vowel c then 1 else 0) + vowel_count w.
Proof.
  unfold vowel_count. rewrite filter_cons.
  destruct (vowel c); by destruct (decide _).
Qed.

Lemma vowel_count_app w1 w2 :
  vowel_count (w1 ++ w2) = vowel_count w1 + vowel_count w2.
Proof. unfold vowel_count. by rewrite filter_app, length_app. Qed.

(** Every shape has one vowel, and letters of the alphabets only. *)
Lemma shape_one_vowel s :
  syllable_shape s = true →
  vowel_count s = 1 ∧ Forall (λ c, vowel c || consonant c = true) s.
Proof.
  intros Hshape.
  destruct s as [|a [|b [|c [|d [|??]]]]]; cbn [syllable_shape] in Hshape;
    try done; rewrite !vowel_count_cons.
  - rewrite Hshape. split; [done|]. repeat constructor. by rewrite Hshape.
  - apply orb_prop in Hshape as [[Ha Hb]%andb_prop|[Ha Hb]%andb_prop].
    + rewrite Ha, (consonant_not_vowel b Hb). split; [done|].
      repeat constructor; rewrite ?Ha, ?Hb, ?orb_true_r; done.
    + rewrite Hb, (consonant_not_vowel a Ha). split; [done|].
      repeat constructor; rewrite ?Ha, ?Hb, ?orb_true_r; done.
  - apply andb_prop in Hshape as [[Ha Hb]%andb_prop Hc].
    rewrite Hb, (consonant_not_vowel a Ha), (consonant_not_vowel c Hc).
    split; [done|].
    repeat constructor; rewrite ?Ha, ?Hb, ?Hc, ?orb_true_r; done.
  - apply andb_prop in Hshape as [[[Ha Hb]%andb_prop Hc]%andb_prop Hd].
    rewrite Hb, (consonant_not_vowel a Ha), (consonant_not_vowel c Hc),
      (consonant_not_vowel d Hd).
    split; [done|].
    repeat constructor; rewrite ?Ha, ?Hb, ?Hc, ?Hd, ?orb_true_r; done.
Qed.

Lemma vowel_count_concat (sylls : list str) :
  Forall (λ s, syllable_shape s = true) sylls →
  vowel_count (concat sylls) = length sylls
  ∧ Forall (λ c, vowel c || consonant c = true) (concat sylls).
Proof.
  induction 1 as [|s sylls Hs _ [IHn IHl]]; [by split|].
  apply shape_one_vowel in Hs as [Hone Hletters]. simpl.
  rewrite vowel_count_app, Hone, IHn. split; [done|].
  by apply Forall_app.
Qed.

(** X2: with the generated inventory a word has as many syllables as vowels:
    every syllable found has one of the five shapes, their number is the
    number of vowels of the lowercased word, and every letter of the word is
    a vowel or a consonant of the alphabets. *)
Theorem syllables_are_vowels (lower : str → str) (word : str)
    (sylls : list str) :
  syllabify_word lower word all_syllables_set = Some sylls →
  length sylls = vowel_count (lower word)
  ∧ Forall (λ s, syllable_shape s = true) sylls
  ∧ Forall (λ c, vowel c || consonant c = true) (lower word).
Proof.
  intros [Hcat Hall]%syllabify_word_sound.
  assert (Hshapes : Forall (λ s, syllable_shape s = true) sylls).
  { eapply Forall_impl; [exact Hall|]. intros s Hs.
    exact (generated_has_shape s (proj1 (elem_of_all_syllables_set s) Hs)). }
  destruct (vowel_count_concat sylls Hshapes) as [Hn Hl].
  rewrite Hcat in Hn, Hl. done.
Qed.

Lemma syllables_are_vowels_witness :
  ∃ sylls, syllabify_word str_lower (py "araba") all_syllables_set = Some sylls
    ∧ length sylls = 3.
Proof.
  destruct (syllabify_word_complete str_lower (py "araba") all_syllables_set
              [py "a"; py "ra"; py "ba"]) as [sylls Hsylls].
  - repeat (apply Forall_cons_2 || apply Forall_nil_2);
      (split; [refine (proj2 (elem_of_all_syllables_set _)
                         (shape_is_generated _ _)); reflexivity
             |simpl; lia]).
  - reflexivity.
  - exists sylls. split; [exact Hsylls|].
    destruct (syllables_are_vowels str_lower (py "araba") sylls Hsylls)
      as (Hn & _).
    rewrite Hn. reflexivity.
Defined.

(** ** The longest candidate first *)

Lemma fill_other word inv dp ends k :
  k ∉ ends → fill word inv dp ends !! k = dp !! k.
Proof.
  revert dp. induction ends as [|i ends IH]; intros dp Hk; [done|].
  apply not_elem_of_cons in Hk as [Hki Hk]. unfold fill in *.
  cbn [foldl]. rewrite IH by done. by apply scan_other.
Qed.

Lemma length_fill word inv dp ends :
  length (fill word inv dp ends) = length dp.
Proof.
  revert dp. induction ends as [|i ends IH]; intros dp; [done|].
  unfold fill in *. cbn [foldl]. by rewrite IH, length_scan.
Qed.

(** X3: a lowercase token of one to four letters that is in the inventory
    is returned as one syllable, whatever shorter syllables the inventory
    has: at the last position the candidate that starts at 0 is tried
    first. *)
Theorem syllabify_word_whole (lower : str → str) (token : str)
    (inv : gset str) :
  lower token = token → 0 < length token ≤ 4 → token ∈ inv →
  syllabify_word lower token inv = Some [token].
Proof.
  intros Hlow [Hpos Hmax] Hin. unfold syllabify_word. rewrite Hlow.
  set (n := length token) in *.
  set (dp0 := <[0:=Some []]> (replicate (n + 1) None)).
  assert (Hseq : seq 1 n = seq 1 (n - 1) ++ [n]).
  { replace n with (n - 1 + 1) at 1 by lia. rewrite seq_app. simpl.
    do 2 f_equal. lia. }
  rewrite Hseq. unfold fill. rewrite foldl_snoc.
  fold (fill token inv dp0 (seq 1 (n - 1))).
  set (dp := fill token inv dp0 (seq 1 (n - 1))).
  assert (Hlen : length dp = n + 1).
  { unfold dp, dp0. by rewrite length_fill, length_insert, length_replicate. }
  assert (Hzero : dp !! 0 = Some (Some [])).
  { unfold dp. rewrite fill_other.
    - unfold dp0. apply list_lookup_insert_eq. rewrite length_replicate. lia.
    - rewrite elem_of_seq. lia. }
  assert (Hstarts : starts n = 0 :: seq 1 (n - 1)).
  { unfold starts. replace (n - 4) with 0 by lia.
    replace (n - 0) with (S (n - 1)) by lia. reflexivity. }
  rewrite Hstarts. cbn [scan]. rewrite Hzero. cbn [mjoin option_join].
  assert (Hslice : slice token 0 n = token).
  { unfold slice. rewrite drop_0. apply take_ge. lia. }
  rewrite Hslice, bool_decide_eq_true_2 by done.
  rewrite list_lookup_insert_eq by lia. reflexivity.
Qed.

Lemma syllabify_word_whole_witness :
  syllabify_word str_lower (py "balk")
    (list_to_set [py "ba"; py "bal"; py "balk"; py "k"; py "lk"])
  = Some [py "balk"].
Proof.
  apply syllabify_word_whole.
  - reflexivity.
  - simpl. lia.
  - compute_done.
Defined.

(** ** The queue is first in, first out *)

Lemma first_by_id_head (b : queue_row) (q : list queue_row) :
  Forall (λ r, (row_id b < row_id r)%Z) q →
  foldl (λ best r,
           match best with
           | Some b => if bool_decide (row_id r < row_id b)%Z then Some r
                       else best
           | None => Some r
           end) (Some b) q = Some b.
Proof.
  induction 1 as [|r q Hr _ IH]; [done|].
  cbn [foldl]. rewrite bool_decide_eq_false_2 by lia. exact IH.
Qed.

Lemma first_by_id_sorted (q : list queue_row) :
  StronglySorted (λ r1 r2, (row_id r1 < row_id r2)%Z) q →
  first_by_id q = head q.
Proof.
  destruct q as [|b q]; [done|].
  intros [Hall _]%StronglySorted_cons. by apply first_by_id_head.
Qed.

Lemma filter_other_ids (b : queue_row) (q : list queue_row) :
  Forall (λ r, (row_id b < row_id r)%Z) q →
  filter (λ r, row_id r ≠ row_id b) q = q.
Proof.
  induction 1 as [|r q Hr _ IH]; [done|].
  rewrite filter_cons_True by lia. by rewrite IH.
Qed.

(** X4: [_get_next_url] on a well-formed queue takes the url at the front:
    it returns the first url of the queue, leaves the others in their order
    and everything else in the store as it was, and commits; on an empty
    queue it returns nothing and changes nothing. *)
Theorem dequeue_fifo (c : conn) :
  queue_wf (txn c) →
  (frontier (txn c) = [] → _get_next_url c = (None, c))
  ∧ ∀ u rest, frontier (txn c) = u :: rest →
      ∃ c', _get_next_url c = (Some u, c')
        ∧ frontier (txn c') = rest
        ∧ disk c' = txn c'
        ∧ queue_wf (txn c')
        ∧ visited_urls (txn c') = visited_urls (txn c)
        ∧ words (txn c') = words (txn c)
        ∧ ∀ k, rows k (txn c') = rows k (txn c).
Proof.
  intros (Hsorted & Hseq & Hnodup). unfold _get_next_url, frontier.
  rewrite (first_by_id_sorted _ Hsorted).
  destruct (url_queue (txn c)) as [|r q] eqn:Hq.
  - split; [done|]. intros u rest. by rewrite fmap_nil.
  - split; [by rewrite fmap_cons|].
    intros u rest. rewrite fmap_cons. intros [= <- <-].
    eexists. split; [reflexivity|].
    apply StronglySorted_cons in Hsorted as [Hall Hsorted].
    cbn [head run foldl step execute txn disk url_queue url_queue_seq
         visited_urls words].
    rewrite Hq, filter_cons_False by (intros H; by apply H).
    rewrite (filter_other_ids r q Hall).
    split; [done|]. split; [done|]. split.
    + unfold queue_wf. cbn [url_queue url_queue_seq].
      apply Forall_cons in Hseq as [_ Hseq].
      rewrite fmap_cons in Hnodup. apply NoDup_cons in Hnodup as [_ Hnodup].
      done.
    + split; [done|]. split; [done|]. by intros [].
Qed.

Lemma StronglySorted_filter {A} (R : relation A) (P : A → Prop)
    `{∀ x, Decision (P x)} (l : list A) :
  StronglySorted R l → StronglySorted R (filter P l).
Proof.
  induction 1 as [|x l Hl IH Hx]; [constructor|].
  rewrite filter_cons. destruct (decide (P x)); [|done].
  constructor; [done|]. apply Forall_forall.
  intros y [_ Hy]%list_elem_of_filter.
  by apply (proj1 (Forall_forall _ _) Hx).
Qed.

Lemma execute_queue_wf q d : queue_wf d → queue_wf (execute q d).
Proof.
  intros (Hsorted & Hseq & Hnodup).
  destruct q as [k key word u|word|u ts|u|url_id]; cbn [execute].
  - by destruct k.
  - done.
  - by destruct (visited_urls d !! u).
  - cbv zeta. case_bool_decide as Hu.
    { unfold queue_wf. cbn [url_queue url_queue_seq].
      split; [done|]. split; [|done].
      eapply Forall_impl; [exact Hseq|]. intros r Hr.
      cbv beta in Hr |- *. lia. }
    unfold queue_wf.
    cbn [url_queue url_queue_seq]. split; [|split].
    + apply StronglySorted_app_2; [|done|repeat constructor].
      intros r1 r2 Hr1 ->%list_elem_of_singleton. cbn [row_id].
      apply (proj1 (Forall_forall _ _) Hseq) in Hr1. lia.
    + apply Forall_app. split.
      * eapply Forall_impl; [exact Hseq|]. intros r Hr.
        cbv beta zeta in Hr |- *. cbn [url_queue_seq]. lia.
      * apply Forall_singleton. cbn [row_id]. lia.
    + rewrite fmap_app. apply NoDup_app. split; [done|].
      split; [|apply NoDup_singleton].
      intros x Hx ->%list_elem_of_singleton. done.
  - unfold queue_wf. cbn [url_queue url_queue_seq]. split; [|split].
    + by apply StronglySorted_filter.
    + apply Forall_forall. intros r [_ Hr]%list_elem_of_filter.
      by apply (proj1 (Forall_forall _ _) Hseq).
    + eapply sublist_NoDup; [exact Hnodup|].
      apply fmap_sublist, sublist_filter.
Qed.

Lemma run_queue_wf script c :
  queue_wf (txn c) → queue_wf (txn (run script c)).
Proof.
  revert c. induction script as [|a script IH]; intros c Hc; [done|].
  cbn [run foldl]. apply IH. destruct a; [|done].
  by apply execute_queue_wf.
Qed.

Lemma get_next_url_queue_wf c :
  queue_wf (txn c) → queue_wf (txn (snd (_get_next_url c))).
Proof.
  intros Hc. unfold _get_next_url. destruct (first_by_id _); [|done].
  by apply run_queue_wf.
Qed.

Lemma dequeue_fifo_witness :
  ∃ c', _get_next_url
          (run (_add_urls_to_queue never_raises 0
                  [sample_url; py "http://a.tr/b"])
             (Conn empty_db empty_db)) = (Some sample_url, c')
    ∧ frontier (txn c') = [py "http://a.tr/b"].
Proof.
  destruct (dequeue_fifo
              (run (_add_urls_to_queue never_raises 0
                      [sample_url; py "http://a.tr/b"])
                 (Conn empty_db empty_db))) as [_ Hfront].
  - apply run_queue_wf. split; [constructor|]. split; constructor.
  - destruct (Hfront sample_url [py "http://a.tr/b"]) as (c' & Hnext & Hrest & _).
    + vm_compute. reflexivity.
    + exists c'. by split.
Defined.

Section SessionFacts.
Context (lower : str → str) (isupper : N → bool)
  (set_iter : list str → list str) (urljoin : str → str → str)
  (scheme netloc : str → str) (now : nat → str)
  (http : nat → str → option (str * list str))
  (insert_raises : nat → str → bool) (inventory : gset str).

Local Abbreviation crawl_pass :=
  (crawl_pass lower isupper set_iter urljoin scheme netloc now http
     insert_raises inventory).
Local Abbreviation crawl_pass_interrupted :=
  (crawl_pass_interrupted lower isupper set_iter urljoin scheme netloc now
     http insert_raises inventory).
Local Abbreviation crawl_loop :=
  (crawl_loop lower isupper set_iter urljoin scheme netloc now http
     insert_raises inventory).
Local Abbreviation crawl_continuous :=
  (crawl_continuous lower isupper set_iter urljoin scheme netloc now http
     insert_raises inventory).

(** All a pass does to the connection is a sequence of calls. *)
Lemma crawl_pass_script max_pages s how s' :
  crawl_pass max_pages s = (how, s') →
  ∃ script, connection s' = run script (connection s).
Proof.
  assert (Hsnd : ∀ (x : control * session), x = (how, s') → snd x = s')
    by (by intros ? ->).
  unfold crawl_pass. destruct (_ && _).
  { intros <-%Hsnd. by exists (@nil call). }
  unfold _get_next_url. destruct (first_by_id _) as [r|].
  - set (dequeue := [Execute (DeleteQueue (row_id r)); Commit]).
    destruct (url r) as [|x u].
    + intros <-%Hsnd. by exists dequeue.
    + destruct (_is_url_visited _ _).
      * intros <-%Hsnd. by exists dequeue.
      * destruct (crawl_page _ _ _ _ _ _ _ _) as [text links].
        intros <-%Hsnd. cbn [snd connection]. rewrite <- run_app.
        by eexists.
  - intros <-%Hsnd. by exists (@nil call).
Qed.

(** So is all that a pass does before an exception leaves it. *)
Lemma crawl_pass_interrupted_script interrupt max_pages s :
  ∃ script,
    connection (crawl_pass_interrupted interrupt max_pages s)
    = run script (connection s).
Proof.
  destruct (crawl_pass_interrupted_cases lower isupper set_iter urljoin
              scheme netloc now http insert_raises inventory interrupt
              max_pages s)
    as [(script & _ & ->)|(u & script & _ & _ & _ & -> & _)];
    by exists script.
Qed.

Lemma crawl_loop_script passes interrupt max_pages s :
  ∃ script,
    connection (crawl_loop passes interrupt max_pages s)
    = run script (connection s).
Proof.
  revert s. induction passes as [|passes IH]; intros s.
  { apply crawl_pass_interrupted_script. }
  cbn [crawl_loop].
  destruct (crawl_pass max_pages s) as [[] s'] eqn:Hpass;
    apply crawl_pass_script in Hpass as [script1 H1].
  - destruct (IH s') as [script2 H2]. exists (script1 ++ script2).
    by rewrite run_app, <- H1.
  - by exists script1.
Qed.

Lemma crawl_continuous_script passes interrupt (seed_urls : list str)
    max_pages c :
  ∃ script,
    connection (crawl_continuous passes interrupt seed_urls max_pages c)
    = run script c.
Proof.
  unfold crawl_continuous. cbn [connection].
  destruct (crawl_loop_script passes interrupt max_pages
              (Session (run (_add_urls_to_queue insert_raises 0 seed_urls) c)
                 0 []))
    as [script H].
  rewrite H. cbn [connection]. rewrite <- !run_app. by eexists.
Qed.

(** X5: the queue stays well formed: whatever calls are made on a
    connection whose queue has increasing ids below the sequence value and
    no url twice, the queue is so afterwards; so it is after a dequeue and
    after a session, however the loop is left. *)
Theorem queue_wf_kept (c : conn) :
  queue_wf (txn c) →
  (∀ script, queue_wf (txn (run script c)))
  ∧ queue_wf (txn (snd (_get_next_url c)))
  ∧ ∀ passes interrupt (seed_urls : list str) max_pages,
      queue_wf
        (txn (connection
                (crawl_continuous passes interrupt seed_urls max_pages c))).
Proof.
  intros Hc. split; [|split].
  - intros script. by apply run_queue_wf.
  - by apply get_next_url_queue_wf.
  - intros passes interrupt seed_urls max_pages.
    destruct (crawl_continuous_script passes interrupt seed_urls max_pages
                c)
      as [script ->].
    by apply run_queue_wf.
Qed.

End SessionFacts.

(** ** Visited marks, and what the store never loses *)

(** X6: the first visit of a url stays: marking a url records the timestamp
    only when the url has none, leaves the other urls alone and is
    committed; marking it again changes nothing at all. *)
Theorem mark_visited_first_wins (u t1 t2 : str) (c : conn) :
  let c1 := run (_mark_url_visited u t1) c in
  visited_urls (txn c1) !! u = Some (default t1 (visited_urls (txn c) !! u))
  ∧ (∀ v, v ≠ u → visited_urls (txn c1) !! v = visited_urls (txn c) !! v)
  ∧ _is_url_visited u c1 = true
  ∧ disk c1 = txn c1
  ∧ run (_mark_url_visited u t2) c1 = c1.
Proof.
  intros c1. subst c1. unfold _is_url_visited.
  cbn [_mark_url_visited run foldl step execute txn disk].
  destruct (visited_urls (txn c) !! u) as [t|] eqn:Hu;
    cbn [visited_urls default txn disk].
  - rewrite Hu. split; [done|]. split; [done|].
    split; [by apply bool_decide_eq_true_2|done].
  - rewrite !lookup_insert_eq. split; [done|].
    split; [by intros v Hv; rewrite lookup_insert_ne|].
    split; [by apply bool_decide_eq_true_2|done].
Qed.

Lemma execute_never_forgets q d :
  words d ⊆ words (execute q d)
  ∧ (∀ u t, visited_urls d !! u = Some t →
       visited_urls (execute q d) !! u = Some t)
  ∧ ∀ k key r, rows k d !! key = Some r →
      ∃ r', rows k (execute q d) !! key = Some r'
        ∧ (frequency r ≤ frequency r')%Z.
Proof.
  destruct q as [k0 key0 word u|word|u ts|u|url_id]; cbn [execute].
  - split; [by destruct k0|]. split; [by destruct k0|].
    intros k key r Hr.
    assert (k0 = k ∨ k0 ≠ k) as [->|Hk]
      by (destruct k0, k; (by left) || (by right)).
    + rewrite rows_set_rows. destruct (decide (key0 = key)) as [->|Hkey].
      * rewrite upsert_lookup, Hr. eexists. split; [done|]. simpl. lia.
      * rewrite upsert_lookup_ne by done. by exists r.
    + rewrite rows_set_rows_ne by done. by exists r.
  - split; [cbn [words]; set_solver|]. split; [done|].
    intros k key r Hr. exists r. by destruct k.
  - destruct (visited_urls d !! u) eqn:Hu.
    + split; [done|]. split; [done|]. intros k key r Hr. by exists r.
    + split; [done|]. split.
      * intros v t Hv. cbn [visited_urls].
        rewrite lookup_insert_ne; [done|]. intros ->. congruence.
      * intros k key r Hr. exists r. by destruct k.
  - case_bool_decide.
    + split; [done|]. split; [done|]. intros k key r Hr. by exists r.
    + split; [done|]. split; [done|]. intros k key r Hr. exists r.
      by destruct k.
  - split; [done|]. split; [done|]. intros k key r Hr. exists r.
    by destruct k.
Qed.

(** X7: the store never forgets: whatever calls are made, every word stays
    in the word table, every visited url keeps its timestamp, and every
    n-gram row stays with a frequency that is not smaller. *)
Theorem store_never_forgets (script : list call) (c : conn) :
  words (txn c) ⊆ words (txn (run script c))
  ∧ (∀ u t, visited_urls (txn c) !! u = Some t →
       visited_urls (txn (run script c)) !! u = Some t)
  ∧ ∀ k key r, rows k (txn c) !! key = Some r →
      ∃ r', rows k (txn (run script c)) !! key = Some r'
        ∧ (frequency r ≤ frequency r')%Z.
Proof.
  revert c. induction script as [|a script IH]; intros c.
  { split; [done|]. split; [done|]. intros k key r Hr. by exists r. }
  cbn [run foldl]. fold (run script (step c a)).
  destruct (IH (step c a)) as (Hw & Hv & Hn).
  assert (Hstep : words (txn c) ⊆ words (txn (step c a))
    ∧ (∀ u t, visited_urls (txn c) !! u = Some t →
         visited_urls (txn (step c a)) !! u = Some t)
    ∧ ∀ k key r, rows k (txn c) !! key = Some r →
        ∃ r', rows k (txn (step c a)) !! key = Some r'
          ∧ (frequency r ≤ frequency r')%Z).
  { destruct a as [q|]; [apply execute_never_forgets|].
    split; [done|]. split; [done|]. intros k key r Hr. by exists r. }
  destruct Hstep as (Hw1 & Hv1 & Hn1).
  split; [by etrans|]. split; [by auto|].
  intros k key r Hr. destruct (Hn1 k key r Hr) as (r1 & Hr1 & Hle1).
  destruct (Hn k key r1 Hr1) as (r2 & Hr2 & Hle2).
  exists r2. split; [done|lia].
Qed.

Lemma frontier_foldl_InsertQueue (urls : list str) (d : db) (u : str) :
  u ∈ frontier (foldl (λ d u, execute (InsertQueue u) d) d urls)
  ↔ u ∈ frontier d ∨ u ∈ urls.
Proof.
  revert d. induction urls as [|v urls IH]; intros d.
  { cbn [foldl]. rewrite elem_of_nil. tauto. }
  cbn [foldl]. rewrite IH, frontier_InsertQueue, elem_of_cons.
  case_bool_decide as Hv.
  - split; [tauto|]. intros [?|[->|?]]; auto.
  - rewrite elem_of_app, list_elem_of_singleton. tauto.
Qed.

(** X8: after enqueueing, the queue holds exactly the urls it held and
    those of the urls given whose INSERT did not raise. *)
Theorem enqueue_membership (raises : nat → str → bool) (t : nat)
    (urls : list str) (c : conn) (u : str) :
  u ∈ frontier (txn (run (_add_urls_to_queue raises t urls) c))
  ↔ u ∈ frontier (txn c) ∨ (u ∈ urls ∧ raises t u = false).
Proof.
  rewrite run_add_urls. cbv zeta. cbn [txn].
  rewrite frontier_foldl_InsertQueue, list_elem_of_filter. tauto.
Qed.

(** ** Letters, pairs and triples of a word *)

Lemma lookup_window (word : str) (width count i : nat) :
  i < count →
  ((λ i, slice word i (i + width)) <$> seq 0 count) !! i
  = Some (take width (drop i word)).
Proof.
  intros Hi. rewrite list_lookup_fmap.
  rewrite (proj2 (lookup_seq 0 _ i i)) by (split; [done|lia]).
  cbn [fmap option_fmap option_map]. unfold slice. do 2 f_equal. lia.
Qed.

(** X9: [_extract_monographs] gives the letters of the word, one string of
    one letter per letter, in order; [_extract_digraphs] gives the
    [len - 1] pairs of neighbouring letters and [_extract_trigraphs] the
    [len - 2] triples, in order, and none for a word too short to have
    one. *)
Theorem ngram_windows (word : str) :
  concat (_extract_monographs word) = word
  ∧ (∀ i a, word !! i = Some a → _extract_monographs word !! i = Some [a])
  ∧ length (_extract_monographs word) = length word
  ∧ length (_extract_digraphs word) = length word - 1
  ∧ length (_extract_trigraphs word) = length word - 2
  ∧ (∀ i a b, word !! i = Some a → word !! S i = Some b →
       _extract_digraphs word !! i = Some [a; b])
  ∧ (∀ i a b c,
       word !! i = Some a → word !! S i = Some b →
       word !! S (S i) = Some c →
       _extract_trigraphs word !! i = Some [a; b; c]).
Proof.
  unfold _extract_monographs, _extract_digraphs, _extract_trigraphs.
  rewrite !length_fmap, !length_seq.
  split; [|split; [|split; [done|split; [done|split; [done|split]]]]].
  - induction word as [|c word IH]; [done|].
    rewrite fmap_cons. cbn [concat app]. by rewrite IH.
  - intros i a Ha. by rewrite list_lookup_fmap, Ha.
  - intros i a b Ha Hb.
    pose proof (lookup_lt_Some _ _ _ Hb) as Hlt.
    rewrite (lookup_window word 2) by lia.
    by rewrite (drop_S _ _ _ Ha), (drop_S _ _ _ Hb).
  - intros i a b c Ha Hb Hc.
    pose proof (lookup_lt_Some _ _ _ Hc) as Hlt.
    rewrite (lookup_window word 3) by lia.
    by rewrite (drop_S _ _ _ Ha), (drop_S _ _ _ Hb), (drop_S _ _ _ Hc).
Qed.

(** ** Tokens *)

Lemma findall_letters (word current : str) :
  Forall (λ c, turkish_pattern c = true) word →
  findall word current
  = if current ++ word is [] then [] else [current ++ word].
Proof.
  intros Hword. revert current.
  induction Hword as [|c word Hc _ IH]; intros current.
  { by rewrite app_nil_r. }
  cbn [findall]. rewrite Hc, IH, <- app_assoc. done.
Qed.

Lemma findall_separator (text1 text2 current : str) (sep : N) :
  turkish_pattern sep = false →
  findall (text1 ++ sep :: text2) current
  = findall text1 current ++ findall text2 [].
Proof.
  intros Hsep. revert current.
  induction text1 as [|c text1 IH]; intros current.
  { cbn [app findall]. by rewrite Hsep. }
  cbn [app findall]. destruct (turkish_pattern c).
  - apply IH.
  - by rewrite IH, app_assoc.
Qed.

Lemma findall_tokens (text current : str) :
  Forall (λ c, turkish_pattern c = true) current →
  Forall (λ w, w ≠ [] ∧ Forall (λ c, turkish_pattern c = true) w)
    (findall text current).
Proof.
  revert current. induction text as [|c text IH]; intros current Hcur.
  { cbn [findall]. destruct current; [constructor|].
    by apply Forall_singleton. }
  cbn [findall]. destruct (turkish_pattern c) eqn:Hc.
  - apply IH. apply Forall_app. split; [done|]. by apply Forall_singleton.
  - apply Forall_app. split; [|by apply IH].
    destruct current; [constructor|]. by apply Forall_singleton.
Qed.

(** X10: what [extract_words] returns: every token has at least two letters,
    all of the character class; a text of class letters only, two or more,
    is one token; a character outside the class separates, the tokens of
    the two sides follow each other; and without [preserve_case] the
    tokens are those, lowercased. *)
Theorem extract_words_tokens (lower : str → str) (text : str) :
  Forall (λ w, 1 < length w ∧ Forall (λ c, turkish_pattern c = true) w)
    (extract_words lower text true)
  ∧ (Forall (λ c, turkish_pattern c = true) text → 1 < length text →
     extract_words lower text true = [text])
  ∧ (∀ text2 sep, turkish_pattern sep = false →
       extract_words lower (text ++ sep :: text2) true
       = extract_words lower text true ++ extract_words lower text2 true)
  ∧ extract_words lower text false = lower <$> extract_words lower text true.
Proof.
  unfold extract_words. cbv zeta. split; [|split; [|split]].
  - apply Forall_forall. intros w [Hlen Hw]%list_elem_of_filter.
    split; [done|].
    pose proof (findall_tokens text [] (Forall_nil_2 _)) as Htok.
    by apply (proj1 (Forall_forall _ _) Htok) in Hw as [_ Hw].
  - intros Hletters Hlen. rewrite findall_letters by done.
    cbn [app]. destruct text as [|c text]; [simpl in Hlen; lia|].
    by rewrite filter_cons_True.
  - intros text2 sep Hsep. by rewrite findall_separator, filter_app.
  - done.
Qed.

(** ** Substrings *)

Lemma startswith_spec (s pattern : str) :
  startswith s pattern = true ↔ ∃ post, s = pattern ++ post.
Proof.
  revert s. induction pattern as [|p pattern IH]; intros s.
  { destruct s; cbn [startswith]; (split; [by eexists|done]). }
  destruct s as [|x s]; cbn [startswith].
  { split; [done|]. by intros [post [=]]. }
  rewrite andb_true_iff, bool_decide_eq_true, IH. split.
  - intros [-> [post ->]]. by exists post.
  - intros [post [= -> ->]]. split; [done|]. by exists post.
Qed.

Lemma contains_spec (s pattern : str) :
  contains s pattern = true ↔ ∃ pre post, s = pre ++ pattern ++ post.
Proof.
  induction s as [|x s IH]; cbn [contains].
  - rewrite orb_false_r, startswith_spec. split.
    + intros [post ->]. by exists [], post.
    + intros (pre & post & H). destruct pre; [by exists post|done].
  - rewrite orb_true_iff, startswith_spec, IH. split.
    + intros [[post ->]|(pre & post & ->)].
      * by exists [], post.
      * by exists (x :: pre), post.
    + intros ([|y pre] & post & H).
      * left. by exists post.
      * right. injection H as -> ->. by exists pre, post.
Qed.

(** X11: [is_turkish_domain] holds of a url exactly when one of the nine
    patterns occurs somewhere in the lowercased url. *)
Theorem is_turkish_domain_spec (lower : str → str) (u : str) :
  is_turkish_domain lower u = true
  ↔ ∃ pattern pre post,
      pattern ∈ turkish_patterns ∧ lower u = pre ++ pattern ++ post.
Proof.
  unfold is_turkish_domain. cbv zeta. rewrite existsb_exists. split.
  - intros (pattern & Hin%list_elem_of_In & (pre & post & H)%contains_spec).
    by exists pattern, pre, post.
  - intros (pattern & pre & post & Hin & H). exists pattern.
    split; [by apply list_elem_of_In|]. apply contains_spec. by exists pre, post.
Qed.

(** ** Statistics *)

Lemma sum_frequency_insert (key : str) (r : ngram_row)
    (t : gmap str ngram_row) :
  t !! key = None →
  sum_frequency (<[key := r]> t) = (frequency r + sum_frequency t)%Z.
Proof.
  intros Hnone. unfold sum_frequency.
  rewrite map_fold_insert_L; [done| |done]. intros. lia.
Qed.

Lemma sum_frequency_upsert (key word u : str) (t : gmap str ngram_row) :
  sum_frequency (upsert key word u t) = (sum_frequency t + 1)%Z.
Proof.
  unfold upsert. destruct (t !! key) as [r|] eqn:Hkey.
  - rewrite <- (insert_delete_id t key r Hkey) at 2.
    rewrite <- insert_delete_eq.
    rewrite !sum_frequency_insert by apply lookup_delete_eq. simpl. lia.
  - rewrite sum_frequency_insert by done. simpl. lia.
Qed.

Lemma size_upsert (key word u : str) (t : gmap str ngram_row) :
  Z.of_nat (size (upsert key word u t))
  = (Z.of_nat (size t) + if t !! key is Some _ then 0 else 1)%Z.
Proof.
  unfold upsert. destruct (t !! key) as [r|] eqn:Hkey.
  - rewrite map_size_insert_Some by done. lia.
  - rewrite map_size_insert_None by done. lia.
Qed.

Lemma found_get_stats k c :
  found k (_get_stats c) = Z.of_nat (size (rows k (txn c))).
Proof. by destruct k. Qed.

Lemma occurrences_get_stats k c :
  occurrences k (_get_stats c) = sum_frequency (rows k (txn c)).
Proof. by destruct k. Qed.

(** X12: one count moves the statistics by one: after an [_update_*] call
    the total of occurrences of its table is one more, the number of its
    distinct n-grams is one more for a new key and the same for a known
    one, and every other entry of the statistics is unchanged. *)
Theorem stats_after_update (k : ngram_table) (key word u : str) (c : conn) :
  let before := _get_stats c in
  let after := _get_stats (run (update_ngram k key word u) c) in
  occurrences k after = (occurrences k before + 1)%Z
  ∧ found k after
    = (found k before + if rows k (txn c) !! key is Some _ then 0 else 1)%Z
  ∧ (∀ k', k ≠ k' →
       occurrences k' after = occurrences k' before
       ∧ found k' after = found k' before)
  ∧ pages_crawled after = pages_crawled before
  ∧ words_found after = words_found before
  ∧ queue_size after = queue_size before.
Proof.
  intros before after. subst before after.
  rewrite !occurrences_get_stats, !found_get_stats, run_update_ngram.
  cbn [txn execute]. rewrite rows_set_rows.
  split; [apply sum_frequency_upsert|]. split; [apply size_upsert|].
  split.
  - intros k' Hk. rewrite !occurrences_get_stats, !found_get_stats.
    cbn [txn]. by rewrite rows_set_rows_ne.
  - by destruct k.
Qed.

Lemma same_table_eq k1 k2 : same_table k1 k2 = true ↔ k1 = k2.
Proof. destruct k1, k2; simpl; split; congruence. Qed.

Lemma sum_frequency_step k c a :
  sum_frequency (rows k (txn (step c a)))
  = (sum_frequency (rows k (txn c)) + upserts k [a])%Z.
Proof.
  destruct a as [q|]; cbn [step txn upserts foldr]; [|lia].
  destruct q as [k0 key0 word u|word|u ts|u|url_id]; cbn [execute].
  - destruct (same_table k k0) eqn:Hk.
    + apply same_table_eq in Hk as ->.
      by rewrite rows_set_rows, sum_frequency_upsert.
    + rewrite rows_set_rows_ne; [lia|]. intros ->.
      by rewrite (proj2 (same_table_eq k k)) in Hk.
  - destruct k; cbn [rows syllables monographs digraphs trigraphs]; lia.
  - destruct (visited_urls (txn c) !! u); [lia|].
    destruct k; cbn [rows syllables monographs digraphs trigraphs]; lia.
  - cbv zeta. case_bool_decide;
      destruct k; cbn [rows syllables monographs digraphs trigraphs]; lia.
  - destruct k; cbn [rows syllables monographs digraphs trigraphs]; lia.
Qed.

Lemma upserts_app k script1 script2 :
  upserts k (script1 ++ script2)
  = (upserts k script1 + upserts k script2)%Z.
Proof.
  induction script1 as [|a script1 IH]; [unfold upserts; simpl; lia|].
  unfold upserts in *. cbn [app foldr]. rewrite IH.
  destruct a as [[k' ???| | | |]|]; try lia.
  destruct (same_table k k'); lia.
Qed.

(** The totals after a script are the totals before plus the counts the
    script makes. *)
Lemma sum_frequency_run k script c :
  sum_frequency (rows k (txn (run script c)))
  = (sum_frequency (rows k (txn c)) + upserts k script)%Z.
Proof.
  revert c. induction script as [|a script IH]; intros c.
  { unfold upserts. simpl. lia. }
  cbn [run foldl]. fold (run script (step c a)).
  rewrite IH, sum_frequency_step.
  change (a :: script) with ([a] ++ script). rewrite upserts_app. lia.
Qed.

Lemma upserts_updates k k' (keys : list str) word u :
  upserts k (keys ≫= λ key, update_ngram k' key word u)
  = if same_table k k' then Z.of_nat (length keys) else 0%Z.
Proof.
  induction keys as [|key keys IH].
  { by destruct (same_table k k'). }
  rewrite bind_cons, upserts_app, IH.
  assert (upserts k (update_ngram k' key word u)
          = if same_table k k' then 1%Z else 0%Z) as ->.
  { destruct k'; unfold upserts; cbn [update_ngram _update_syllable
      _update_monograph _update_digraph _update_trigraph foldr];
      by destruct (same_table k _). }
  destruct (same_table k k'); cbn [length]; lia.
Qed.

Lemma words_run_updates k (keys : list str) word u c :
  words (txn (run (keys ≫= λ key, update_ngram k key word u) c))
  = words (txn c).
Proof.
  revert c. induction keys as [|key keys IH]; intros c; [done|].
  rewrite bind_cons, run_app, IH, run_update_ngram. by destruct k.
Qed.

Section TextFacts.
Context (lower : str → str) (isupper : N → bool)
  (set_iter : list str → list str) (inventory : gset str).

Local Abbreviation process_word := (process_word lower isupper inventory).
Local Abbreviation process_text :=
  (process_text lower isupper set_iter inventory).
Local Abbreviation turkish_word := (turkish_word lower isupper inventory).
Local Abbreviation turkish_words :=
  (turkish_words lower isupper set_iter inventory).

Lemma process_word_script word u :
  process_word word u
  = match turkish_word word with
    | Some (word_lower, syllables) =>
        [Execute (InsertWord word_lower)]
        ++ (syllables ≫= λ s, update_ngram Syllables s word_lower u)
        ++ (_extract_monographs word_lower
              ≫= λ g, update_ngram Monographs g word_lower u)
        ++ (_extract_digraphs word_lower
              ≫= λ g, update_ngram Digraphs g word_lower u)
        ++ (_extract_trigraphs word_lower
              ≫= λ g, update_ngram Trigraphs g word_lower u)
    | None => []
    end.
Proof.
  unfold process_word, turkish_word.
  destruct (match word with [] => false | c :: _ => isupper c end); [done|].
  by destruct (syllabify_word _ _ _) as [[|s sylls]|].
Qed.

Lemma upserts_process_word k word u :
  upserts k (process_word word u)
  = from_option (ngrams_of k) 0%Z (turkish_word word).
Proof.
  rewrite process_word_script.
  destruct (turkish_word word) as [[word_lower syllables]|]; [|done].
  rewrite !upserts_app, !upserts_updates.
  unfold _extract_monographs, _extract_digraphs, _extract_trigraphs.
  rewrite !length_fmap, !length_seq.
  destruct k; cbn [same_table from_option ngrams_of fst snd upserts foldr];
    lia.
Qed.

Lemma words_process_word word u c :
  words (txn (run (process_word word u) c))
  = words (txn c)
    ∪ from_option (λ entry, {[fst entry]}) ∅ (turkish_word word).
Proof.
  rewrite process_word_script.
  destruct (turkish_word word) as [[word_lower syllables]|];
    cbn [from_option fst]; [|cbn [run foldl]; clear set_iter; set_solver].
  rewrite !run_app, !words_run_updates. cbn [run foldl step execute txn words].
  (clear set_iter; set_solver).
Qed.

Lemma text_statements_totals k u (tokens : list str) c :
  upserts k (tokens ≫= λ word, process_word word u)
  = total_ngrams k (omap turkish_word tokens)
  ∧ words (txn (run (tokens ≫= λ word, process_word word u) c))
    = words (txn c) ∪ list_to_set (fst <$> omap turkish_word tokens).
Proof.
  revert c. induction tokens as [|word tokens IH]; intros c.
  { split; [done|]. cbn [omap list_omap fmap list_fmap list_to_set].
    cbn [mbind list_bind run foldl]. (clear set_iter; set_solver). }
  rewrite bind_cons, upserts_app, run_app.
  destruct (IH (run (process_word word u) c)) as [IHn IHw].
  rewrite IHn, IHw, upserts_process_word, words_process_word.
  cbn [omap list_omap]. fold (omap turkish_word tokens).
  destruct (turkish_word word) as [entry|]; cbn [from_option].
  - cbn [total_ngrams foldr fmap list_fmap list_to_set].
    split; [done|]. (clear set_iter; set_solver).
  - split; [lia|]. (clear set_iter; set_solver).
Qed.

(** X13: what a text adds: after [process_text] the total of occurrences of
    each n-gram table has grown by the number of its n-grams in the words
    counted (syllables, letters, pairs and triples of letters), the word
    table has these words added, the visited urls are untouched and all of
    it is committed. *)
Theorem process_text_totals (text u : str) (c : conn) :
  let counted := turkish_words text in
  let c' := run (process_text text u) c in
  (∀ k, occurrences k (_get_stats c')
        = (occurrences k (_get_stats c) + total_ngrams k counted)%Z)
  ∧ words (txn c') = words (txn c) ∪ list_to_set (fst <$> counted)
  ∧ visited_urls (txn c') = visited_urls (txn c)
  ∧ disk c' = txn c'.
Proof.
  intros counted c'. subst counted c'. unfold process_text, turkish_words.
  cbv zeta. set (tokens := set_iter (extract_words lower text true)).
  destruct (text_statements_totals Syllables u tokens c) as [_ Hwords].
  split; [|split; [|split]].
  - intros k. rewrite !occurrences_get_stats, sum_frequency_run, upserts_app.
    destruct (text_statements_totals k u tokens c) as [-> _].
    unfold upserts at 1. cbn [foldr]. lia.
  - rewrite run_app. cbn [run foldl step txn]. exact Hwords.
  - apply visited_urls_run. apply Forall_app. split; [|by repeat constructor].
    apply Forall_bind, Forall_forall. intros word _.
    by apply process_word_calls.
  - by rewrite run_app.
Qed.

End TextFacts.

(** ** The page budget, and a fetch that fails *)

Section BudgetFacts.
Context (lower : str → str) (isupper : N → bool)
  (set_iter : list str → list str) (urljoin : str → str → str)
  (scheme netloc : str → str) (now : nat → str)
  (http : nat → str → option (str * list str))
  (insert_raises : nat → str → bool) (inventory : gset str).

Local Abbreviation crawl_pass :=
  (crawl_pass lower isupper set_iter urljoin scheme netloc now http
     insert_raises inventory).
Local Abbreviation crawl_pass_interrupted :=
  (crawl_pass_interrupted lower isupper set_iter urljoin scheme netloc now
     http insert_raises inventory).
Local Abbreviation crawl_loop :=
  (crawl_loop lower isupper set_iter urljoin scheme netloc now http
     insert_raises inventory).
Local Abbreviation crawl_continuous :=
  (crawl_continuous lower isupper set_iter urljoin scheme netloc now http
     insert_raises inventory).

Lemma crawl_pass_budget max_pages s how s' :
  crawl_pass max_pages s = (how, s') →
  within_budget max_pages s →
  within_budget max_pages s'
  ∧ length (fetched s') ≤ S (length (fetched s)).
Proof.
  unfold crawl_pass, within_budget. intros Hpass [Hpages Hmax].
  destruct (bool_decide (0 < max_pages)%Z
            && bool_decide (max_pages ≤ Z.of_nat (pages_this_session s))%Z)
    eqn:Hstop.
  { apply (f_equal snd) in Hpass. cbn [snd] in Hpass. subst s'.
    split; [done|lia]. }
  assert ((0 < max_pages)%Z →
          (Z.of_nat (pages_this_session s + 1) ≤ max_pages)%Z) as Hroom.
  { intros Hpos. apply andb_false_iff in Hstop as [Hstop|Hstop];
      apply bool_decide_eq_false in Hstop; lia. }
  destruct (_get_next_url (connection s)) as [[[|x u]|] c].
  - apply (f_equal snd) in Hpass. cbn [snd] in Hpass. subst s'.
    cbn [pages_this_session fetched]. split; [done|lia].
  - destruct (_is_url_visited (x :: u) c).
    + apply (f_equal snd) in Hpass. cbn [snd] in Hpass. subst s'.
      cbn [pages_this_session fetched]. split; [done|lia].
    + destruct (crawl_page _ _ _ _ _ _ _ _) as [text links].
      apply (f_equal snd) in Hpass. cbn [snd] in Hpass. subst s'.
      cbn [pages_this_session fetched]. rewrite length_app. cbn [length].
      split; [split; [lia|done]|lia].
  - apply (f_equal snd) in Hpass. cbn [snd] in Hpass. subst s'.
    cbn [pages_this_session fetched]. split; [done|lia].
Qed.

Lemma crawl_pass_interrupted_budget interrupt max_pages s :
  within_budget max_pages s →
  within_budget max_pages (crawl_pass_interrupted interrupt max_pages s)
  ∧ length (fetched (crawl_pass_interrupted interrupt max_pages s))
    ≤ length (fetched s) + (if interrupt is 0 then 0 else 1).
Proof.
  intros [Hpages Hmax].
  destruct (crawl_pass_interrupted_cases lower isupper set_iter urljoin
              scheme netloc now http insert_raises inventory interrupt
              max_pages s)
    as [(script & _ & ->)|(u & script & Hint & Hroom & _ & -> & _)];
    unfold within_budget; cbn [pages_this_session fetched].
  - split; [done|]. lia.
  - rewrite length_app. cbn [length]. split; [split; [lia|]|].
    + intros Hpos. lia.
    + destruct interrupt; lia.
Qed.

Lemma crawl_loop_budget passes interrupt max_pages s :
  within_budget max_pages s →
  within_budget max_pages (crawl_loop passes interrupt max_pages s)
  ∧ length (fetched (crawl_loop passes interrupt max_pages s))
    ≤ length (fetched s) + passes + (if interrupt is 0 then 0 else 1).
Proof.
  revert s. induction passes as [|passes IH]; intros s Hs.
  { cbn [crawl_loop].
    destruct (crawl_pass_interrupted_budget interrupt max_pages s Hs)
      as [Hs' Hlen].
    split; [done|lia]. }
  cbn [crawl_loop].
  destruct (crawl_pass max_pages s) as [how s'] eqn:Hpass.
  destruct (crawl_pass_budget _ _ _ _ Hpass Hs) as [Hs' Hlen].
  destruct how.
  - destruct (IH s' Hs') as [Hloop Hfetched]. split; [done|lia].
  - split; [done|lia].
Qed.

(** X14: a session fetches at most [max_pages] pages when [max_pages] is
    positive, and never more pages than the loop makes passes, the pass
    that an exception leaves included; the page counter is the number of
    urls requested. *)
Theorem page_budget (passes interrupt : nat) (seed_urls : list str)
    (max_pages : Z) (c : conn) :
  let s := crawl_continuous passes interrupt seed_urls max_pages c in
  pages_this_session s = length (fetched s)
  ∧ length (fetched s) ≤ passes + (if interrupt is 0 then 0 else 1)
  ∧ ((0 < max_pages)%Z → (Z.of_nat (length (fetched s)) ≤ max_pages)%Z).
Proof.
  intros s. subst s. unfold crawl_continuous.
  cbn [pages_this_session fetched].
  destruct (crawl_loop_budget passes interrupt max_pages
              (Session (run (_add_urls_to_queue insert_raises 0 seed_urls) c)
                 0 []))
    as [[Hpages Hmax] Hlen].
  { split; [done|]. cbn [pages_this_session]. lia. }
  cbn [fetched length] in Hlen.
  split; [done|]. split; [lia|]. intros Hpos. rewrite <- Hpages. auto.
Qed.

(** X15: a fetch that fails still counts: when the request for the next,
    unvisited url fails, the pass goes on with the url counted as a page
    and as fetched, marked visited at the time of the pass and committed,
    while the queue, the words and the n-gram tables stay as the dequeue
    left them. *)
Theorem failed_fetch (max_pages : Z) (s : session) (u : str) (c1 : conn) :
  ¬ ((0 < max_pages)%Z ∧ (max_pages ≤ Z.of_nat (pages_this_session s))%Z) →
  _get_next_url (connection s) = (Some u, c1) →
  u ≠ [] →
  _is_url_visited u c1 = false →
  http (pages_this_session s + 1) u = None →
  ∃ c2,
    crawl_pass max_pages s
    = (Continue, Session c2 (pages_this_session s + 1) (fetched s ++ [u]))
    ∧ visited_urls (txn c2)
      = <[u := now (pages_this_session s + 1)]> (visited_urls (txn c1))
    ∧ url_queue (txn c2) = url_queue (txn c1)
    ∧ words (txn c2) = words (txn c1)
    ∧ (∀ k, rows k (txn c2) = rows k (txn c1))
    ∧ disk c2 = txn c2.
Proof.
  intros Hroom Hnext Hu Hnew Hfail. unfold crawl_pass.
  rewrite (proj2 (andb_false_iff _ _)).
  2:{ destruct (decide (0 < max_pages)%Z) as [Hpos|Hpos].
      - right. apply bool_decide_eq_false_2. intros Hle. by apply Hroom.
      - left. by apply bool_decide_eq_false_2. }
  rewrite Hnext. destruct u as [|x u]; [done|]. rewrite Hnew.
  unfold crawl_page. rewrite Hfail.
  eexists. split; [reflexivity|].
  unfold _is_url_visited in Hnew. apply bool_decide_eq_false in Hnew.
  apply (not_elem_of_dom (D:=gset str)) in Hnew || idtac.
  cbn [page_script _mark_url_visited app run foldl step execute txn disk].
  assert (visited_urls (txn c1) !! (x :: u) = None) as Hnone.
  { destruct (visited_urls (txn c1) !! (x :: u)) eqn:H; [|done].
    exfalso. apply Hnew. by eexists. }
  rewrite Hnone. cbn [visited_urls url_queue words].
  split; [done|]. split; [done|]. split; [done|]. split; [by intros []|done].
Qed.

End BudgetFacts.

Lemma queue_wf_kept_witness :
  queue_wf (txn (connection (self_link_session 3))).
Proof.
  destruct (queue_wf_kept str_lower isupper_cp (λ l, l) (λ base href, href)
              (λ u, py "http") (λ u, py "a.tr") sample_now self_link_site
              never_raises sample_inventory (Conn empty_db empty_db))
    as (_ & _ & Hsession).
  - split; [constructor|]. split; constructor.
  - exact (Hsession 3 0 [sample_url] 0%Z).
Defined.

Lemma page_budget_witness :
  length
    (fetched
       (crawl_continuous str_lower isupper_cp (λ l, l) (λ base href, href)
          (λ u, py "http") (λ u, py "a.tr") sample_now self_link_site
          never_raises sample_inventory 5 3
          [sample_url; py "http://a.tr/b"] 1 (Conn empty_db empty_db)))
  ≤ 5 + 1
  ∧ (Z.of_nat
       (length
          (fetched
             (crawl_continuous str_lower isupper_cp (λ l, l)
                (λ base href, href) (λ u, py "http") (λ u, py "a.tr")
                sample_now self_link_site never_raises sample_inventory 5 3
                [sample_url; py "http://a.tr/b"] 1
                (Conn empty_db empty_db)))) ≤ 1)%Z.
Proof.
  destruct (page_budget str_lower isupper_cp (λ l, l) (λ base href, href)
              (λ u, py "http") (λ u, py "a.tr") sample_now self_link_site
              never_raises sample_inventory 5 3
              [sample_url; py "http://a.tr/b"] 1
              (Conn empty_db empty_db)) as (_ & Hpasses & Hmax).
  split; [exact Hpasses|]. apply Hmax. lia.
Defined.

Lemma failed_fetch_witness :
  ∃ c2,
    crawl_pass str_lower isupper_cp (λ l, l) (λ base href, href)
      (λ u, py "http") (λ u, py "a.tr") sample_now (λ t u, None)
      never_raises sample_inventory 0
      (Session (run (_add_urls_to_queue never_raises 0 [sample_url])
                  (Conn empty_db empty_db)) 0 [])
    = (Continue, Session c2 1 [sample_url])
    ∧ visited_urls (txn c2) = {[sample_url := sample_now 1]}.
Proof.
  destruct (failed_fetch str_lower isupper_cp (λ l, l) (λ base href, href)
              (λ u, py "http") (λ u, py "a.tr") sample_now (λ t u, None)
              never_raises sample_inventory 0
              (Session (run (_add_urls_to_queue never_raises 0 [sample_url])
                          (Conn empty_db empty_db)) 0 [])
              sample_url
              (run [Execute (DeleteQueue 1); Commit]
                 (run (_add_urls_to_queue never_raises 0 [sample_url])
                    (Conn empty_db empty_db))))
    as (c2 & Hpass & Hvisited & _).
  - lia.
  - vm_compute. reflexivity.
  - discriminate.
  - vm_compute. reflexivity.
  - reflexivity.
  - exists c2. split; [exact Hpass|]. rewrite Hvisited. vm_compute.
    reflexivity.
Defined.

(** ** The syllable counter of a word list *)

Lemma counter_total_insert (s : str) (n : Z) (counter : gmap str Z) :
  counter_total (<[s := n]> counter)
  = (counter_total counter - default 0 (counter !! s) + n)%Z.
Proof.
  assert (Hnew : ∀ (t : gmap str Z) m, t !! s = None →
            counter_total (<[s := m]> t) = (m + counter_total t)%Z).
  { intros t m Hnone. unfold counter_total.
    rewrite map_fold_insert_L; [done| |done]. intros. lia. }
  destruct (counter !! s) as [m|] eqn:Hs; cbn [default].
  - rewrite <- (insert_delete_id counter s m Hs) at 2.
    rewrite <- insert_delete_eq.
    rewrite !Hnew by apply lookup_delete_eq. unfold id. lia.
  - rewrite Hnew by done. lia.
Qed.

Lemma counter_update_spec (syllables : list str) (counter : gmap str Z) :
  (∀ s, default 0%Z (counter_update counter syllables !! s)
        = (default 0 (counter !! s)
           + Z.of_nat (length (filter (λ x, x = s) syllables)))%Z)
  ∧ counter_total (counter_update counter syllables)
    = (counter_total counter + Z.of_nat (length syllables))%Z
  ∧ ∀ s, is_Some (counter_update counter syllables !! s) ↔
         is_Some (counter !! s) ∨ s ∈ syllables.
Proof.
  revert counter. induction syllables as [|x syllables IH]; intros counter.
  { cbn [counter_update foldl filter list_filter length].
    split; [intros; lia|]. split; [lia|].
    intros s. rewrite elem_of_nil. tauto. }
  cbn [counter_update foldl].
  fold (counter_update
          (<[x := (default 0 (counter !! x) + 1)%Z]> counter) syllables).
  destruct (IH (<[x := (default 0 (counter !! x) + 1)%Z]> counter))
    as (Hcount & Htotal & Hkeys).
  split; [|split].
  - intros s. rewrite Hcount.
    destruct (decide (x = s)) as [->|Hne].
    + rewrite filter_cons_True, lookup_insert_eq by done.
      cbn [default from_option length]. unfold id. lia.
    + rewrite filter_cons_False, lookup_insert_ne by done. lia.
  - rewrite Htotal, counter_total_insert. cbn [length]. lia.
  - intros s. rewrite Hkeys, elem_of_cons.
    destruct (decide (x = s)) as [->|Hne].
    + rewrite lookup_insert_eq. split; [by right; left|]. intros _. by left.
    + rewrite lookup_insert_ne by done. split.
      * intros [H|H]; [by left|by right; right].
      * intros [H|[H|H]]; [by left|congruence|by right].
Qed.

Section CounterFacts.
Context (lower : str → str).

Local Abbreviation analyze_syllables := (analyze_syllables lower).

(** The loop of [analyze_syllables] from any state of its three
    variables. *)
Lemma analyze_syllables_loop (inv : gset str) (words : list str)
    (counter0 : gmap str Z) (successful0 failed0 : nat) :
  ∃ counter successful failed,
    foldl (λ '(syllable_counter, successful, failed) word,
             match syllabify_word lower word inv with
             | Some ((_ :: _) as syllables) =>
                 (counter_update syllable_counter syllables,
                  successful + 1, failed)
             | _ => (syllable_counter, successful, failed + 1)
             end)
      (counter0, successful0, failed0) words
    = (counter, successful, failed)
    ∧ counter = counter_update counter0 (concat (segmented lower inv words))
    ∧ successful = successful0 + length (segmented lower inv words)
    ∧ successful + failed = successful0 + failed0 + length words.
Proof.
  revert counter0 successful0 failed0.
  induction words as [|word words IH]; intros counter0 successful0 failed0.
  { exists counter0, successful0, failed0.
    cbn [foldl length segmented omap list_omap concat counter_update].
    split; [done|]. split; [done|]. split; lia. }
  cbn [foldl]. unfold segmented. cbn [omap list_omap].
  fold (omap (λ word,
          match syllabify_word lower word inv with
          | Some ((_ :: _) as syllables) => Some syllables
          | _ => None
          end) words).
  fold (segmented lower inv words).
  destruct (syllabify_word lower word inv) as [[|s syllables]|].
  - destruct (IH counter0 successful0 (failed0 + 1))
      as (counter & successful & failed & -> & -> & -> & Hsum).
    eexists _, _, _. split; [done|]. split; [done|]. split; [done|].
    cbn [length]. lia.
  - destruct (IH (counter_update counter0 (s :: syllables))
                (successful0 + 1) failed0)
      as (counter & successful & failed & -> & -> & -> & Hsum).
    eexists _, _, _. split; [done|]. split.
    { cbn [concat]. unfold counter_update. by rewrite foldl_app. }
    split; cbn [length]; lia.
  - destruct (IH counter0 successful0 (failed0 + 1))
      as (counter & successful & failed & -> & -> & -> & Hsum).
    eexists _, _, _. split; [done|]. split; [done|]. split; [done|].
    cbn [length]. lia.
Qed.

(** X16: what [analyze_syllables] counts: every word is counted once, as
    successful when it segments and as failed otherwise; the counter holds
    for each syllable the number of times it occurs in the segmentations
    of the successful words, its counts add up to the number of these
    syllables, and every key of the counter is in the inventory. *)
Theorem analyze_syllables_counts (words : list str) (inv : gset str) :
  ∃ counter successful failed,
    analyze_syllables words inv = (counter, successful, failed)
    ∧ successful + failed = length words
    ∧ successful = length (segmented lower inv words)
    ∧ (∀ s, default 0%Z (counter !! s)
            = Z.of_nat
                (length (filter (λ x, x = s)
                           (concat (segmented lower inv words)))))
    ∧ counter_total counter
      = Z.of_nat (length (concat (segmented lower inv words)))
    ∧ ∀ s, is_Some (counter !! s) → s ∈ inv.
Proof.
  destruct (analyze_syllables_loop inv words ∅ 0 0)
    as (counter & successful & failed & Hrun & -> & -> & Hsum).
  exists (counter_update ∅ (concat (segmented lower inv words))),
    (0 + length (segmented lower inv words)), failed.
  destruct (counter_update_spec (concat (segmented lower inv words)) ∅)
    as (Hcount & Htotal & Hkeys).
  split; [exact Hrun|]. split; [lia|]. split; [done|].
  split; [|split].
  - intros s. rewrite Hcount, lookup_empty. cbn [default]. lia.
  - rewrite Htotal. unfold counter_total. rewrite map_fold_empty. lia.
  - intros s [Hs|Hs]%Hkeys; [by destruct Hs as [? Hs]; rewrite lookup_empty in Hs|].
    apply list_elem_of_In, in_concat in Hs as (syllables & Hword & Hs).
    apply list_elem_of_In in Hword, Hs. unfold segmented in Hword.
    apply list_elem_of_omap in Hword as (word & _ & Hword).
    destruct (syllabify_word lower word inv) as [[|s0 l]|] eqn:Hsyll;
      [done| |done].
    injection Hword as <-.
    destruct (syllabify_word_sound lower word inv _ Hsyll) as [_ Hall].
    by apply (proj1 (Forall_forall _ _) Hall).
Qed.

End CounterFacts.
